(** * RegexFilter plugin: a shallow embedding of [plugin.py]

  The development follows the layout of the source file:
  - [Py]: the Python values the plugin manipulates ([str] as a list of
    code points, [str.strip], string literals);
  - [Re]: the part of Python's [re] module the plugin relies on
    (backtracking matcher, [re.sub] with the empty-match rule);
  - the configuration dictionary and [ConfigManager];
  - [RegexMessageFilter], [RegexRemoveCommand], [RegexTestCommand];
  - the properties of the specification. *)

From Stdlib Require Import NArith ZArith List String Ascii Bool Lia.
From Stdlib Require Import DecimalString DecimalZ DecimalPos.
From stdpp Require Import gmap strings list.

Set Default Proof Using "Type".
Local Open Scope N_scope.

(* ===================================================================== *)
(** ** Python strings *)
(* ===================================================================== *)

Module Py.

(** A Python [str] is a sequence of Unicode code points. *)
Definition str := list N.

(** UTF-8 decoding, used only to write [str] literals legibly. *)
Fixpoint utf8 (need : nat) (acc : N) (bs : list N) : str :=
  match bs with
  | [] => []
  | b :: bs' =>
    match need with
    | S n =>
      let acc' := acc * 64 + b mod 64 in
      match n with
      | O => acc' :: utf8 O 0 bs'
      | S _ => utf8 n acc' bs'
      end
    | O =>
      if b <? 128 then b :: utf8 O 0 bs'
      else if b <? 224 then utf8 1 (b mod 32) bs'
      else if b <? 240 then utf8 2 (b mod 16) bs'
      else utf8 3 (b mod 8) bs'
    end
  end.

Definition lit (s : string) : str :=
  utf8 O 0 (map N_of_ascii (list_ascii_of_string s)).

(** Characters with a name in the source. *)
Definition LF : N := 10.
Definition CR : N := 13.
Definition TAB : N := 9.
Definition SP : N := 32.
Definition QUOTE : N := 34.
Definition BACKSLASH : N := 92.

(** [str.isspace] on one code point ([Py_UNICODE_ISSPACE]); the same
    predicate decides [\s] in a [str] pattern and what [str.strip]
    removes. *)
Definition isspace (c : N) : bool :=
  ((9 <=? c) && (c <=? 13)) || ((28 <=? c) && (c <=? 32))
  || (c =? 133) || (c =? 160) || (c =? 5760)
  || ((8192 <=? c) && (c <=? 8202))
  || (c =? 8232) || (c =? 8233) || (c =? 8239) || (c =? 8287)
  || (c =? 12288).

(** [s.lstrip()], [s.rstrip()], [s.strip()]. *)
Fixpoint lstrip (s : str) : str :=
  match s with
  | c :: s' => if isspace c then lstrip s' else s
  | [] => []
  end.

Definition rstrip (s : str) : str := rev (lstrip (rev s)).

Definition strip (s : str) : str := rstrip (lstrip s).

(** Truth value of a [str]: [not s] holds for the empty string only. *)
Definition truthy (s : str) : bool :=
  match s with [] => false | _ :: _ => true end.

(** [a == b] on strings. *)
Definition str_eqb (a b : str) : bool := bool_decide (a = b).

End Py.

(* ===================================================================== *)
(** ** The [re] module *)
(* ===================================================================== *)

Module Re.
Import Py.

(** [re.IGNORECASE] and [re.MULTILINE]. *)
Definition IGNORECASE : Z := 2.
Definition MULTILINE : Z := 8.

(** Compiled patterns: single-character atoms, concatenation,
    alternation and the greedy quantifiers on an atom.  This covers
    the four patterns of [_clean_extra_whitespace] and literal rule
    patterns. *)
Inductive regex :=
| Eps
| Atom (p : N -> bool)
| Cat (r1 r2 : regex)
| Alt (r1 r2 : regex)
| Star (p : N -> bool)
| Plus (p : N -> bool).

Definition Chr (c : N) : regex := Atom (N.eqb c).

(** Greedy repetition of an atom: take the longest run first and give
    characters back one at a time while the continuation fails. *)
Fixpoint star (p : N -> bool) (k : str -> option str) (s : str)
  : option str :=
  match s with
  | c :: s' =>
    if p c then
      match star p k s' with
      | Some rest => Some rest
      | None => k s
      end
    else k s
  | [] => k []
  end.

(** The backtracking matcher: [match_k r s k] tries the ways [r] can
    match a prefix of [s] in priority order and returns the result of
    the first one the continuation [k] accepts. *)
Fixpoint match_k (r : regex) (s : str) (k : str -> option str)
  : option str :=
  match r with
  | Eps => k s
  | Atom p =>
    match s with
    | c :: s' => if p c then k s' else None
    | [] => None
    end
  | Cat r1 r2 => match_k r1 s (fun s' => match_k r2 s' k)
  | Alt r1 r2 =>
    match match_k r1 s k with
    | Some rest => Some rest
    | None => match_k r2 s k
    end
  | Star p => star p k s
  | Plus p =>
    match s with
    | c :: s' => if p c then star p k s' else None
    | [] => None
    end
  end.

(** A match attempt at the current position.  With [must_advance] an
    empty match is rejected and the matcher backtracks. *)
Definition match_at (r : regex) (must_advance : bool) (s : str)
  : option str :=
  match_k r s (fun rest =>
    if must_advance && (length rest =? length s)%nat then None
    else Some rest).

(** The substitution loop of [re.sub]: search from the current
    position, copy the characters skipped, emit the replacement and
    go on after the match; after an empty match the next attempt at
    the same position must advance. *)
Fixpoint subx (fuel : nat) (r : regex) (repl : str)
         (must_advance : bool) (s : str) : str :=
  match fuel with
  | O => s
  | S fuel' =>
    match match_at r must_advance s with
    | Some rest =>
      repl ++ subx fuel' r repl (length rest =? length s)%nat rest
    | None =>
      match s with
      | [] => []
      | c :: s' => c :: subx fuel' r repl false s'
      end
    end
  end.

(** [re.sub(r, repl, s)] for a compiled [r] and a literal [repl]. *)
Definition sub (r : regex) (repl : str) (s : str) : str :=
  subx (2 * length s + 2) r repl false s.

(** The pattern matching the characters of [p] in sequence. *)
Fixpoint literal (p : str) : regex :=
  match p with
  | [] => Eps
  | c :: p' => Cat (Chr c) (literal p')
  end.

End Re.

Import Py Re.

(* ===================================================================== *)
(** ** The configuration dictionary *)
(* ===================================================================== *)

(** An entry of a rule list is a dictionary; the keys the plugin reads
    are optional and every read goes through [dict.get] with a default.
    One record serves the three kinds of rule, as one dictionary type
    does in the source. *)
Record rule := Rule {
  r_pattern : option str;
  r_replacement : option str;
  r_content : option str;
  r_position : option str;
  r_enabled : option bool;
  r_ignore_case : option bool;
  r_multiline : option bool;
  r_description : option str
}.

Record plugin_section := PluginSection {
  p_enabled : option bool;
  p_config_version : option str
}.

Record rules_section := RulesSection {
  replace_rules : option (list rule);
  delete_rules : option (list rule);
  append_rules : option (list rule)
}.

Record advanced_section := AdvancedSection {
  max_content_length : option Z;
  log_changes : option bool
}.

Record config := Config {
  plugin : option plugin_section;
  rules : option rules_section;
  advanced : option advanced_section
}.

(** The empty dictionary [{}]. *)
Definition empty_config : config := Config None None None.

(** [rule.get("enabled", True)] and its siblings. *)
Definition get_pattern (r : rule) : str := default [] (r_pattern r).
Definition get_replacement (r : rule) : str := default [] (r_replacement r).
Definition get_content (r : rule) : str := default [] (r_content r).
Definition get_position (r : rule) : str := default (lit "end") (r_position r).
Definition get_enabled (r : rule) : bool := default true (r_enabled r).
Definition get_ignore_case (r : rule) : bool := default false (r_ignore_case r).
Definition get_multiline (r : rule) : bool := default false (r_multiline r).

(** [config.get("plugin", {}).get("enabled", True)]. *)
Definition plugin_enabled (c : config) : bool :=
  default true (p ← plugin c; p_enabled p).

(** [config.get("rules", {}).get("replace_rules", [])] and siblings. *)
Definition get_replace_rules (c : config) : list rule :=
  default [] (r ← rules c; replace_rules r).
Definition get_delete_rules (c : config) : list rule :=
  default [] (r ← rules c; delete_rules r).
Definition get_append_rules (c : config) : list rule :=
  default [] (r ← rules c; append_rules r).

(** [config.get("advanced", {}).get("log_changes", False)]. *)
Definition get_log_changes (c : config) : bool :=
  default false (a ← advanced c; log_changes a).

(** The defaults declared in [RegexFilterPlugin.config_schema]. *)
Definition schema_replace_rules : list rule :=
  [ Rule (Some (lit "不可以")) (Some (lit "可以")) None None
         (Some true) (Some false) (Some false)
         (Some (lit "将'不可以'替换为'可以'"));
    Rule (Some (lit "(糟糕|坏|不好)")) (Some (lit "好")) None None
         (Some true) (Some false) (Some false)
         (Some (lit "将负面词汇替换为'好'")) ].

Definition schema_delete_rules : list rule :=
  [ Rule (Some (lit "问题")) None None None
         (Some true) (Some false) (Some false)
         (Some (lit "删除所有'问题'字样")) ].

Definition schema_defaults : config :=
  Config
    (Some (PluginSection (Some true) (Some (lit "1.0.0"))))
    (Some (RulesSection (Some schema_replace_rules)
                        (Some schema_delete_rules) (Some [])))
    (Some (AdvancedSection (Some 10000%Z) (Some false))).

(* ===================================================================== *)
(** ** ConfigManager *)
(* ===================================================================== *)

(** The configuration file as [load_config] meets it: absent, present
    but failing to open or decode, or holding some text. *)
Inductive file :=
| Missing
| Unreadable
| Stored (text : str).

(** The store: the file at [config_path], and whether the directory
    can be made and the file opened for writing. *)
Record store := Store {
  st_file : file;
  st_writable : bool
}.

(** [toml.load] is the reader of the third-party [toml] package:
    [None] stands for the exception it raises on text it rejects. *)
Class TomlReader := toml_load : str -> option config.

(** What [ConfigManager] sends to [logger.error]. *)
Inductive log_record :=
| LoadFailed
| SaveFailed.

(** [ConfigManager.load_config]: [{}] when the file is missing, the
    parsed dictionary when it loads, and [{}] with an error record when
    opening, reading or parsing raises. *)
Definition load_config_logged `{TomlReader} (f : file)
  : config * list log_record :=
  match f with
  | Missing => (empty_config, [])
  | Unreadable => (empty_config, [LoadFailed])
  | Stored text =>
    match toml_load text with
    | Some c => (c, [])
    | None => (empty_config, [LoadFailed])
    end
  end.

Definition load_config `{TomlReader} (f : file) : config :=
  fst (load_config_logged f).

(** [s.replace(old, new)] for a one-character [old]. *)
Fixpoint replace_char (old : N) (new : str) (s : str) : str :=
  match s with
  | [] => []
  | c :: s' =>
    (if c =? old then new else [c]) ++ replace_char old new s'
  end.

(** [ConfigManager._escape_toml_string]. *)
Definition _escape_toml_string (value : str) : str :=
  replace_char TAB [BACKSLASH; 116]
    (replace_char CR [BACKSLASH; 114]
      (replace_char LF [BACKSLASH; 110]
        (replace_char QUOTE [BACKSLASH; QUOTE]
          (replace_char BACKSLASH [BACKSLASH; BACKSLASH] value)))).

(** [str(b).lower()] for a [bool] and [str(n)] for an [int]. *)
Definition bool_lower (b : bool) : str :=
  if b then lit "true" else lit "false".

Definition int_str (z : Z) : str :=
  map N_of_ascii (list_ascii_of_string (NilEmpty.string_of_int (Z.to_int z))).

Definition plugin_name : str := lit "regex_filter_plugin".

(** A source line: the text followed by a line feed. *)
Definition line (s : string) : str := lit s ++ [LF].

(** [key = "value"\n] with the value escaped by the caller. *)
Definition kv_str (key : string) (escaped : str) : str :=
  lit key ++ lit " = " ++ [QUOTE] ++ escaped ++ [QUOTE; LF].

Definition kv_raw (key : string) (value : str) : str :=
  lit key ++ lit " = " ++ value ++ [LF].

Definition gen_description (r : rule) : str :=
  match r_description r with
  | Some d => kv_str "description" (_escape_toml_string d)
  | None => []
  end.

Definition gen_replace_rule (r : rule) : str :=
  line "[[rules.replace_rules]]"
  ++ kv_str "pattern" (_escape_toml_string (get_pattern r))
  ++ kv_str "replacement" (_escape_toml_string (get_replacement r))
  ++ kv_raw "enabled" (bool_lower (get_enabled r))
  ++ kv_raw "ignore_case" (bool_lower (get_ignore_case r))
  ++ kv_raw "multiline" (bool_lower (get_multiline r))
  ++ gen_description r
  ++ [LF].

Definition gen_delete_rule (r : rule) : str :=
  line "[[rules.delete_rules]]"
  ++ kv_str "pattern" (_escape_toml_string (get_pattern r))
  ++ kv_raw "enabled" (bool_lower (get_enabled r))
  ++ kv_raw "ignore_case" (bool_lower (get_ignore_case r))
  ++ kv_raw "multiline" (bool_lower (get_multiline r))
  ++ gen_description r
  ++ [LF].

Definition gen_append_rule (r : rule) : str :=
  line "[[rules.append_rules]]"
  ++ kv_str "content" (_escape_toml_string (get_content r))
  ++ kv_str "position" (_escape_toml_string (get_position r))
  ++ kv_raw "enabled" (bool_lower (get_enabled r))
  ++ gen_description r
  ++ [LF].

Definition gen_rule_list (title : string) (gen : rule -> str)
           (l : option (list rule)) : str :=
  match l with
  | Some rs => line title ++ concat (map gen rs)
  | None => []
  end.

Definition gen_plugin (p : option plugin_section) : str :=
  match p with
  | Some pc =>
    line "# 插件基本配置" ++ line "[plugin]" ++ [LF]
    ++ match p_enabled pc with
       | Some b =>
         line "# 是否启用插件" ++ kv_raw "enabled" (bool_lower b) ++ [LF]
       | None => []
       end
    ++ match p_config_version pc with
       | Some v =>
         line "# 配置文件版本"
         ++ kv_str "config_version" (_escape_toml_string v) ++ [LF]
       | None => []
       end
  | None => []
  end.

Definition gen_rules (r : option rules_section) : str :=
  match r with
  | Some rc =>
    [LF] ++ line "# 正则过滤规则配置" ++ line "[rules]" ++ [LF]
    ++ gen_rule_list "# 替换规则列表" gen_replace_rule (replace_rules rc)
    ++ gen_rule_list "# 删除规则列表" gen_delete_rule (delete_rules rc)
    ++ gen_rule_list "# 添加规则列表" gen_append_rule (append_rules rc)
  | None => []
  end.

Definition gen_advanced (a : option advanced_section) : str :=
  match a with
  | Some ac =>
    line "# 高级设置" ++ line "[advanced]" ++ [LF]
    ++ match max_content_length ac with
       | Some n =>
         line "# 最大处理内容长度"
         ++ kv_raw "max_content_length" (int_str n) ++ [LF]
       | None => []
       end
    ++ match log_changes ac with
       | Some b =>
         line "# 是否记录更改日志" ++ kv_raw "log_changes" (bool_lower b)
       | None => []
       end
  | None => []
  end.

(** [ConfigManager._generate_toml_content]. *)
Definition _generate_toml_content (c : config) : str :=
  lit "# " ++ plugin_name ++ line " - 自动生成的配置文件"
  ++ line "# 一个使用正则表达式处理LLM消息的MaiBot插件，可以对LLM回复进行替换、删除、增添等操作。"
  ++ [LF]
  ++ gen_plugin (plugin c)
  ++ gen_rules (rules c)
  ++ gen_advanced (advanced c).

(** A code point UTF-8 can encode is a Unicode scalar value; a Python
    [str] may also hold lone surrogates, which [f.write] refuses with
    [UnicodeEncodeError]. *)
Definition scalar (c : N) : bool :=
  (c <? 55296) || ((57343 <? c) && (c <=? 1114111)).

Definition encodable (s : str) : bool := forallb scalar s.

(** [ConfigManager.save_config]: the content is generated, the file is
    opened with mode ['w'] and the content written.  When the directory
    cannot be created or the file cannot be opened the exception is
    caught, the file is left as it was and [False] is returned.  When
    the file was opened, and so truncated, and the content cannot be
    encoded, the write raises: [False] is returned and the file stays
    empty. *)
Definition save_config (c : config) (st : store) : bool * store :=
  let toml_content := _generate_toml_content c in
  if st_writable st
  then
    if encodable toml_content
    then (true, Store (Stored toml_content) true)
    else (false, Store (Stored []) true)
  else (false, st).

(* ===================================================================== *)
(** ** RegexMessageFilter *)
(* ===================================================================== *)

(** How a call of [re.sub] on user-supplied strings ends: it returns
    the new string; it raises [re.error] (the pattern does not compile,
    or the replacement template is malformed); or it raises another
    exception, as [OverflowError] for a repetition count beyond the
    limit of the engine ([a{4294967296}]), which [except re.error] does
    not catch. *)
Inductive sub_result :=
| SubOk (s : str)
| SubReError
| SubOtherError.

(** [re.sub(pattern, repl, string, flags=flags)]. *)
Class ReEngine := re_sub : str -> str -> str -> Z -> sub_result.

(** The character class [[ \t]]. *)
Definition is_hspace (c : N) : bool := (c =? SP) || (c =? TAB).

(** The four patterns of [_clean_extra_whitespace], compiled. *)
Definition re_blank_lines : regex :=      (* \n\s*\n\s* *)
  Cat (Chr LF) (Cat (Star isspace) (Cat (Chr LF) (Star isspace))).
Definition re_hspaces : regex :=          (* [ \t]+ *)
  Plus is_hspace.
Definition re_line_start : regex :=       (* \n[ \t]+ *)
  Cat (Chr LF) (Plus is_hspace).
Definition re_line_end : regex :=         (* [ \t]+\n *)
  Cat (Plus is_hspace) (Chr LF).

(** [RegexMessageFilter._clean_extra_whitespace]. *)
Definition _clean_extra_whitespace (content : str) : str :=
  if negb (truthy content) then content
  else
    let content := strip content in
    let content := sub re_blank_lines [LF; LF] content in
    let content := sub re_hspaces [SP] content in
    let content := sub re_line_start [LF] content in
    let content := sub re_line_end [LF] content in
    strip content.

(** The flags built from a rule: [flags = 0], then [|= re.IGNORECASE]
    and [|= re.MULTILINE] as the rule asks. *)
Definition rule_flags (r : rule) : Z :=
  let flags := 0%Z in
  let flags := if get_ignore_case r then Z.lor flags IGNORECASE else flags in
  let flags := if get_multiline r then Z.lor flags MULTILINE else flags in
  flags.

(** The replace loop of [execute]: disabled rules are skipped, and a
    rule whose [re.sub] raises [re.error] leaves the buffer as it is.
    Any other exception leaves the loop; [None] stands for that. *)
Fixpoint replace_stage `{ReEngine} (rs : list rule) (processed : str)
  : option str :=
  match rs with
  | [] => Some processed
  | r :: rs' =>
    if negb (get_enabled r) then replace_stage rs' processed
    else
      match re_sub (get_pattern r) (get_replacement r) processed
                   (rule_flags r) with
      | SubOk processed' => replace_stage rs' processed'
      | SubReError => replace_stage rs' processed
      | SubOtherError => None
      end
  end.

(** The delete loop of [execute]. *)
Fixpoint delete_stage `{ReEngine} (rs : list rule) (processed : str)
  : option str :=
  match rs with
  | [] => Some processed
  | r :: rs' =>
    if negb (get_enabled r) then delete_stage rs' processed
    else
      match re_sub (get_pattern r) [] processed (rule_flags r) with
      | SubOk processed' => delete_stage rs' processed'
      | SubReError => delete_stage rs' processed
      | SubOtherError => None
      end
  end.

(** The append loop of [execute]. *)
Fixpoint append_stage (rs : list rule) (processed : str) : str :=
  match rs with
  | [] => processed
  | r :: rs' =>
    if negb (get_enabled r) then append_stage rs' processed
    else if str_eqb (get_position r) (lit "start")
    then append_stage rs' (get_content r ++ processed)
    else append_stage rs' (processed ++ get_content r)
  end.

(** The three rule stages followed by the final clean-up; [None] when
    an exception other than [re.error] left one of the loops. *)
Definition transform `{ReEngine} (c : config) (original_content : str)
  : option str :=
  processed ← replace_stage (get_replace_rules c) original_content;
  processed ← delete_stage (get_delete_rules c) processed;
  let processed := append_stage (get_append_rules c) processed in
  Some (_clean_extra_whitespace processed).

(** Values stored in [llm_response]: [None], a [str], or any other
    object, of which only the truth value matters here. *)
Inductive value :=
| VNone
| VStr (s : str)
| VOther (truth : bool).

(** Values stored in [params]: [None] or a dictionary. *)
Inductive param :=
| PNone
| PDict (d : gmap string value).

Definition K_llm_response : string := "llm_response".
Definition K_content : string := "content".

(** The [message] of the [HandlerResult], one constructor per return
    statement of [execute]. *)
Inductive outcome :=
| PluginDisabled          (* 插件未启用 *)
| ParamsEmpty             (* 参数为空 *)
| NoLlmResponse           (* 未找到llm_response *)
| NoContent               (* 未找到LLM响应内容 *)
| Processed               (* 消息处理完成 *)
| Unchanged               (* 消息无变化 *)
| Failed.                 (* 处理错误 *)

Record HandlerResult := mkHandlerResult {
  success : bool;
  continue_process : bool;
  message : outcome
}.

Definition result_of (o : outcome) : HandlerResult :=
  match o with
  | Failed => mkHandlerResult false true Failed
  | _ => mkHandlerResult true true o
  end.

(** [RegexMessageFilter.execute].  [params] is [None] or a dictionary;
    the dictionary under ["llm_response"] is updated in place, so the
    function returns [params] as the caller sees it afterwards.  A
    [content] that is true but not a [str] makes [len], [re.sub] or
    [strip] raise, and a rule can make [re.sub] raise an exception
    that is not [re.error]: the outer handler turns both into a
    failure, with nothing written. *)
Definition execute `{TomlReader} `{ReEngine} (f : file)
           (params : option (gmap string param))
  : HandlerResult * option (gmap string param) :=
  let config := load_config f in
  if negb (plugin_enabled config) then (result_of PluginDisabled, params)
  else
    match params with
    | None => (result_of ParamsEmpty, params)
    | Some ps =>
      if bool_decide (ps = ∅) then (result_of ParamsEmpty, params)
      else
        match ps !! K_llm_response with
        | None | Some PNone => (result_of NoLlmResponse, params)
        | Some (PDict llm_response) =>
          if bool_decide (llm_response = ∅)
          then (result_of NoLlmResponse, params)
          else
            match llm_response !! K_content with
            | None | Some VNone => (result_of NoContent, params)
            | Some (VOther truth) =>
              if truth then (result_of Failed, params)
              else (result_of NoContent, params)
            | Some (VStr original_content) =>
              if negb (truthy original_content)
              then (result_of NoContent, params)
              else
                match transform config original_content with
                | None => (result_of Failed, params)
                | Some cleaned_content =>
                  if negb (str_eqb cleaned_content original_content)
                  then
                    (result_of Processed,
                     Some (<[K_llm_response :=
                              PDict (<[K_content := VStr cleaned_content]>
                                       llm_response)]> ps))
                  else (result_of Unchanged, params)
                end
            end
        end
    end.

(* ===================================================================== *)
(** ** RegexRemoveCommand *)
(* ===================================================================== *)

(** The accepted values of [rule_type]. *)
Inductive rule_type :=
| KReplace      (* "replace" *)
| KDelete       (* "delete" *)
| KAppend.      (* "append" *)

(** [config['rules'][f"{rule_type}_rules"]], if the key is there. *)
Definition rule_list (t : rule_type) (rc : rules_section)
  : option (list rule) :=
  match t with
  | KReplace => replace_rules rc
  | KDelete => delete_rules rc
  | KAppend => append_rules rc
  end.

Definition set_rule_list (t : rule_type) (l : list rule)
           (rc : rules_section) : rules_section :=
  match t with
  | KReplace => RulesSection (Some l) (delete_rules rc) (append_rules rc)
  | KDelete => RulesSection (replace_rules rc) (Some l) (append_rules rc)
  | KAppend => RulesSection (replace_rules rc) (delete_rules rc) (Some l)
  end.

(** [RegexRemoveCommand._delete_rule], on a 0-based [index]. *)
Definition _delete_rule `{TomlReader} (t : rule_type) (index : Z)
           (st : store) : bool * store :=
  let config := load_config (st_file st) in
  match rules config with
  | None => (false, st)
  | Some rc =>
    match rule_list t rc with
    | None => (false, st)
    | Some rules_list =>
      if ((index <? 0) || (index >=? Z.of_nat (length rules_list)))%Z
      then (false, st)
      else
        let rules_list' := delete (Z.to_nat index) rules_list in
        save_config
          (Config (plugin config)
                  (Some (set_rule_list t rules_list' rc))
                  (advanced config))
          st
    end
  end.


(* ===================================================================== *)
(** ** RegexTestCommand *)
(* ===================================================================== *)

(** The two loops of [RegexTestCommand.execute]: [re.sub] is called
    without [flags]; [None] when an exception other than [re.error]
    left the loop. *)
Fixpoint test_replace_stage `{ReEngine} (rs : list rule) (test_text : str)
  : option str :=
  match rs with
  | [] => Some test_text
  | r :: rs' =>
    if negb (get_enabled r) then test_replace_stage rs' test_text
    else
      match re_sub (get_pattern r) (get_replacement r) test_text 0%Z with
      | SubOk t => test_replace_stage rs' t
      | SubReError => test_replace_stage rs' test_text
      | SubOtherError => None
      end
  end.

Fixpoint test_delete_stage `{ReEngine} (rs : list rule) (test_text : str)
  : option str :=
  match rs with
  | [] => Some test_text
  | r :: rs' =>
    if negb (get_enabled r) then test_delete_stage rs' test_text
    else
      match re_sub (get_pattern r) [] test_text 0%Z with
      | SubOk t => test_delete_stage rs' t
      | SubReError => test_delete_stage rs' test_text
      | SubOtherError => None
      end
  end.

Record TestResult := mkTestResult {
  original : str;
  transformed : str;
  changed : bool
}.

(** How [RegexTestCommand.execute] ends: with the report, or in its
    outer handler, which answers that the test failed. *)
Inductive test_outcome :=
| TestDone (report : TestResult)
| TestFailed.

(** [RegexTestCommand.execute] on a non-empty argument: the outcome and
    the store after the call (the command never saves). *)
Definition regex_test `{TomlReader} `{ReEngine} (st : store)
           (test_text : str) : test_outcome * store :=
  let original_text := test_text in
  let config := load_config (st_file st) in
  match test_replace_stage (get_replace_rules config) test_text with
  | None => (TestFailed, st)
  | Some test_text =>
    match test_delete_stage (get_delete_rules config) test_text with
    | None => (TestFailed, st)
    | Some test_text =>
      (TestDone (mkTestResult original_text test_text
                              (negb (str_eqb test_text original_text))), st)
    end
  end.

(** The replace and delete stages of the message handler on their own. *)
Definition replace_delete `{ReEngine} (c : config) (text : str)
  : option str :=
  processed ← replace_stage (get_replace_rules c) text;
  delete_stage (get_delete_rules c) processed.

(* ===================================================================== *)
(** ** Reference instances *)
(* ===================================================================== *)

(** The characters with a meaning of their own in a pattern. *)
Definition special (c : N) : bool :=
  existsb (N.eqb c) (lit ".^$*+?{}[]\|()").

Definition plain_pattern (p : str) : bool :=
  forallb (fun c => negb (special c)) p.

Definition plain_repl (r : str) : bool :=
  forallb (fun c => negb (c =? BACKSLASH)) r.

(** An engine treats literals as [re] does when a pattern free of
    special characters, with a replacement free of backslashes and no
    flag, is substituted as the sequence of its characters. *)
Definition literal_faithful (E : ReEngine) : Prop :=
  forall p r s,
    plain_pattern p = true -> plain_repl r = true ->
    re_sub p r s 0%Z = SubOk (sub (literal p) r s).

(** Case folding of the letters A-Z. *)
Definition ascii_lower (c : N) : N :=
  if (65 <=? c) && (c <=? 90) then c + 32 else c.

Fixpoint literal_nocase (p : str) : regex :=
  match p with
  | [] => Eps
  | a :: p' =>
    Cat (Atom (fun c => ascii_lower c =? ascii_lower a)) (literal_nocase p')
  end.

(** A small engine for literal patterns, used to run the pipeline on
    concrete texts: special characters and backslashes are rejected,
    [re.IGNORECASE] folds the letters A-Z. *)
Definition literal_engine : ReEngine :=
  fun pattern repl s flags =>
    if plain_pattern pattern && plain_repl repl
    then
      SubOk (sub (if Z.testbit flags 1 then literal_nocase pattern
                  else literal pattern) repl s)
    else SubReError.

(** The same engine with one pattern added whose repetition count is
    beyond the limit of [re]: for [a{4294967296}] the call raises
    [OverflowError], not [re.error]. *)
Definition overflow_pattern : str := lit "a{4294967296}".

Definition overflow_engine : ReEngine :=
  fun pattern repl s flags =>
    if str_eqb pattern overflow_pattern then SubOtherError
    else literal_engine pattern repl s flags.

(** [params] with the string [x] under [llm_response.content]. *)
Definition content_params (x : str) : option (gmap string param) :=
  Some (<[K_llm_response := PDict (<[K_content := VStr x]> ∅)]> ∅).

(** An enabled replace or delete rule of the configuration makes
    [re.sub] raise an exception other than [re.error] on some text. *)
Definition some_rule_raises `{ReEngine} (c : config) : Prop :=
  exists r y,
    get_enabled r = true
    /\ ((In r (get_replace_rules c)
         /\ re_sub (get_pattern r) (get_replacement r) y (rule_flags r)
            = SubOtherError)
        \/ (In r (get_delete_rules c)
            /\ re_sub (get_pattern r) [] y (rule_flags r) = SubOtherError)).

(** A reader that finds the given dictionary in every file. *)
Definition reader_of (c : config) : TomlReader := fun _ => Some c.


(** A pattern fails to compile with [re.error] when [re.sub] raises
    it whatever the replacement and the text. *)
Definition fails_to_compile `{ReEngine} (pattern : str) (flags : Z) : Prop :=
  forall repl s, re_sub pattern repl s flags = SubReError.

(** A configuration with the global switch off. *)
Definition disabled_config (rs ds aps : list rule) : config :=
  Config (Some (PluginSection (Some false) None))
         (Some (RulesSection (Some rs) (Some ds) (Some aps)))
         None.

(** The dictionary under [params["llm_response"]], if there is one. *)
Definition response_of (params : option (gmap string param))
  : option (gmap string value) :=
  ps ← params;
  match ps !! K_llm_response with
  | Some (PDict d) => Some d
  | _ => None
  end.

(** The contents an append loop prepends and appends, in list order. *)
Definition is_start (r : rule) : bool :=
  str_eqb (get_position r) (lit "start").

Definition start_contents (rs : list rule) : list str :=
  map get_content
      (List.filter (fun r => get_enabled r && is_start r) rs).

Definition end_contents (rs : list rule) : list str :=
  map get_content
      (List.filter (fun r => get_enabled r && negb (is_start r)) rs).

(** An enabled append rule. *)
Definition append_rule (content position : string) : rule :=
  Rule None None (Some (lit content)) (Some (lit position))
       (Some true) None None None.

(** An enabled replace rule and an enabled delete rule. *)
Definition replace_rule (pattern replacement : string) (ignore_case : bool)
  : rule :=
  Rule (Some (lit pattern)) (Some (lit replacement)) None None
       (Some true) (Some ignore_case) (Some false) None.

Definition delete_rule (pattern : string) : rule :=
  Rule (Some (lit pattern)) None None None
       (Some true) (Some false) (Some false) None.

(** A rule as [RegexTestCommand] reads it: the two flags are not
    looked at. *)
Definition without_flags (r : rule) : rule :=
  Rule (r_pattern r) (r_replacement r) (r_content r) (r_position r)
       (r_enabled r) None None (r_description r).

(** A configuration made of rule lists only. *)
Definition rules_config (rs ds aps : list rule) : config :=
  Config None (Some (RulesSection (Some rs) (Some ds) (Some aps))) None.

(** A reader that rejects every file. *)
Definition reader_reject : TomlReader := fun _ => None.

(** [load_config] falls back on [{}]: the file is missing, cannot be
    read, or is rejected by the reader. *)
Definition load_falls_back `{TomlReader} (f : file) : bool :=
  match f with
  | Missing | Unreadable => true
  | Stored text =>
    match toml_load text with
    | Some _ => false
    | None => true
    end
  end.

(** The rule list of a kind as the commands see it, [[]] when the key
    or the section is absent. *)
Definition stored_rules `{TomlReader} (t : rule_type) (st : store)
  : list rule :=
  default [] (rc ← rules (load_config (st_file st)); rule_list t rc).



(* ===================================================================== *)
(** ** Vocabulary for the clean-up pass *)
(* ===================================================================== *)

(** [skip p s] drops the leading characters of [s] that satisfy [p];
    [starts p s] tells whether [s] begins with such a character. *)
Fixpoint skip (p : N -> bool) (s : str) : str :=
  match s with
  | c :: s' => if p c then skip p s' else s
  | [] => []
  end.

Definition starts (p : N -> bool) (s : str) : bool :=
  match s with
  | c :: _ => p c
  | [] => false
  end.

(** The white space at the front of [s] contains a line feed. *)
Fixpoint lf_in_run (s : str) : bool :=
  match s with
  | c :: s' => isspace c && ((LF =? c) || lf_in_run s')
  | [] => false
  end.

(** The blanks at the front of [s] are followed by a line feed. *)
Fixpoint hrun_lf (s : str) : bool :=
  match s with
  | c :: s' => if is_hspace c then hrun_lf s' else LF =? c
  | [] => false
  end.

(** [s] ends with a white-space character. *)
Fixpoint lastws (s : str) : bool :=
  match s with
  | [] => false
  | c :: s' => match s' with [] => isspace c | _ :: _ => lastws s' end
  end.

(** Fixed points of the four substitutions, as local conditions. *)
Fixpoint ok_blank_lines (s : str) : bool :=
  match s with
  | [] => true
  | c :: s' =>
    (negb ((LF =? c) && lf_in_run s')
     || (starts (N.eqb LF) s' && negb (starts isspace (tail s'))))
    && ok_blank_lines s'
  end.

Fixpoint ok_hspaces (s : str) : bool :=
  match s with
  | [] => true
  | c :: s' =>
    negb (c =? TAB) && negb (is_hspace c && starts is_hspace s')
    && ok_hspaces s'
  end.

Fixpoint ok_line_start (s : str) : bool :=
  match s with
  | [] => true
  | c :: s' => negb ((LF =? c) && starts is_hspace s') && ok_line_start s'
  end.

Fixpoint ok_line_end (s : str) : bool :=
  match s with
  | [] => true
  | c :: s' =>
    negb (is_hspace c && starts (N.eqb LF) s') && ok_line_end s'
  end.

(** [squeeze p q s s']: [s'] is [s] with some characters satisfying [p]
    dropped and some of them replaced by a character satisfying [q]. *)
Inductive squeeze (p q : N -> bool) : str -> str -> Prop :=
| squeeze_nil : squeeze p q [] []
| squeeze_keep c s s' :
    squeeze p q s s' -> squeeze p q (c :: s) (c :: s')
| squeeze_del c s s' :
    p c = true -> squeeze p q s s' -> squeeze p q (c :: s) s'
| squeeze_sub c c' s s' :
    p c = true -> q c' = true -> squeeze p q s s' ->
    squeeze p q (c :: s) (c' :: s').

(** The predicate no character satisfies. *)
Definition no_char (c : N) : bool := false.

(** A string that [strip] leaves alone: no white space at either end. *)
Definition trimmed (s : str) : Prop :=
  starts isspace s = false /\ lastws s = false.

(* ===================================================================== *)
(** ** A reader for the files [ConfigManager] writes *)
(* ===================================================================== *)

(** [toml.load] belongs to the third-party [toml] package, whose code
    is not part of the plugin: it stays a parameter ([TomlReader]).
    [toml_read] is not that package.  It is a reference for what the
    files written by [_generate_toml_content] mean in TOML: it reads
    comments, blank lines, [[table]] and [[[array.of.tables]]] headers,
    and [key = value] lines whose value is a basic string, a boolean or
    an integer, and decodes the escapes of a basic string as the
    grammar says.  It is meant for those files only: other TOML
    (literal and multi-line strings, trailing comments, inline tables,
    dates, ...) is outside of it, and it does not check which
    characters a document may hold; [toml_text] below does that. *)

Inductive toml_value :=
| TStr (s : str)
| TBool (b : bool)
| TInt (z : Z).

Inductive toml_line :=
| LBlank
| LTable (name : str)
| LArray (name : str)
| LPair (key : str) (v : toml_value).

Definition HASH : N := 35.
Definition EQUALS : N := 61.
Definition LBRACKET : N := 91.
Definition RBRACKET : N := 93.

(** [text.split('\n')]. *)
Fixpoint split_lines (s : str) : list str :=
  match s with
  | [] => [[]]
  | c :: s' =>
    if LF =? c then [] :: split_lines s'
    else
      match split_lines s' with
      | l :: ls => (c :: l) :: ls
      | [] => [[c]]
      end
  end.

(** The value of a hexadecimal digit. *)
Definition hex_val (c : N) : option N :=
  if (48 <=? c) && (c <=? 57) then Some (c - 48)
  else if (65 <=? c) && (c <=? 70) then Some (c - 55)
  else if (97 <=? c) && (c <=? 102) then Some (c - 87)
  else None.

Fixpoint hex_number (ds : list N) (acc : N) : option N :=
  match ds with
  | [] => Some acc
  | d :: ds' =>
    match hex_val d with
    | Some v => hex_number ds' (acc * 16 + v)
    | None => None
    end
  end.

(** The character a one-letter escape stands for. *)
Definition escape_char (e : N) : option N :=
  if e =? 98 then Some 8            (* \b *)
  else if e =? 116 then Some TAB    (* \t *)
  else if e =? 110 then Some LF     (* \n *)
  else if e =? 102 then Some 12     (* \f *)
  else if e =? 114 then Some CR     (* \r *)
  else if e =? QUOTE then Some QUOTE
  else if e =? BACKSLASH then Some BACKSLASH
  else None.

Definition push (c : N) (r : option (str * str)) : option (str * str) :=
  match r with
  | Some (s, rest) => Some (c :: s, rest)
  | None => None
  end.

(** The body of a basic string, read up to the closing quote: the
    decoded string and what follows the quote.  An escape is a
    backslash followed by one of [b t n f r], a quote or a backslash,
    or by [u] and four hexadecimal digits that give a scalar value;
    any other escape is an error.  A raw character is taken as it is:
    which raw characters a document may hold is the business of
    [toml_text]. *)
Fixpoint basic_string (s : str) : option (str * str) :=
  match s with
  | [] => None
  | c :: s' =>
    if c =? QUOTE then Some ([], s')
    else if c =? BACKSLASH then
      match s' with
      | [] => None
      | e :: s'' =>
        if e =? 117 then                                  (* \uXXXX *)
          match s'' with
          | h1 :: h2 :: h3 :: h4 :: t =>
            match hex_number [h1; h2; h3; h4] 0 with
            | Some u => if scalar u then push u (basic_string t) else None
            | None => None
            end
          | _ => None
          end
        else
          match escape_char e with
          | Some d => push d (basic_string s'')
          | None => None
          end
      end
    else push c (basic_string s')
  end.

(** An integer in decimal notation. *)
Definition read_int (v : str) : option Z :=
  if forallb (fun c => c <? 256) v
  then
    match NilEmpty.int_of_string
            (string_of_list_ascii (map ascii_of_N v)) with
    | Some d => Some (Z.of_int d)
    | None => None
    end
  else None.

Definition parse_value (v : str) : option toml_value :=
  match v with
  | [] => None
  | c :: body =>
    if c =? QUOTE then
      match basic_string body with
      | Some (s, []) => Some (TStr s)
      | _ => None
      end
    else if str_eqb v (lit "true") then Some (TBool true)
    else if str_eqb v (lit "false") then Some (TBool false)
    else
      match read_int v with
      | Some z => Some (TInt z)
      | None => None
      end
  end.

(** [key = value]: the line is cut at the first equals sign. *)
Fixpoint split_eq (l : str) : option (str * str) :=
  match l with
  | [] => None
  | c :: l' =>
    if c =? EQUALS then Some ([], l')
    else push c (split_eq l')
  end.

Definition parse_header (l : str) : option toml_line :=
  match l with
  | _ :: c2 :: rest =>
    if c2 =? LBRACKET then
      match rev rest with
      | r1 :: r2 :: name =>
        if (r1 =? RBRACKET) && (r2 =? RBRACKET)
        then Some (LArray (strip (rev name))) else None
      | _ => None
      end
    else
      match rev (c2 :: rest) with
      | r1 :: name =>
        if r1 =? RBRACKET then Some (LTable (strip (rev name))) else None
      | [] => None
      end
  | _ => None
  end.

Definition parse_line (l : str) : option toml_line :=
  match strip l with
  | [] => Some LBlank
  | c :: rest =>
    if c =? HASH then Some LBlank
    else if c =? LBRACKET then parse_header (c :: rest)
    else
      match split_eq (c :: rest) with
      | Some (k, v) =>
        match parse_value (strip v) with
        | Some val => Some (LPair (strip k) val)
        | None => None
        end
      | None => None
      end
  end.

(** Where the reader is in the document. *)
Inductive section :=
| SecTop
| SecPlugin
| SecRules
| SecAdvanced
| SecList (t : rule_type)
| SecOther.

(** The reader's state: the current table and the dictionary built so
    far. *)
Record reader_state := ReaderState {
  rd_section : section;
  rd_config : config
}.

Definition empty_rule : rule :=
  Rule None None None None None None None None.

Definition empty_rules : rules_section := RulesSection None None None.

(** [[table]]: a table may be defined once. *)
Definition open_table (name : str) (st : reader_state)
  : option reader_state :=
  let c := rd_config st in
  if str_eqb name (lit "plugin") then
    match plugin c with
    | None =>
      Some (ReaderState SecPlugin
              (Config (Some (PluginSection None None)) (rules c)
                      (advanced c)))
    | Some _ => None
    end
  else if str_eqb name (lit "rules") then
    match rules c with
    | None =>
      Some (ReaderState SecRules
              (Config (plugin c) (Some empty_rules) (advanced c)))
    | Some _ => None
    end
  else if str_eqb name (lit "advanced") then
    match advanced c with
    | None =>
      Some (ReaderState SecAdvanced
              (Config (plugin c) (rules c)
                      (Some (AdvancedSection None None))))
    | Some _ => None
    end
  else Some (ReaderState SecOther c).

(** [[[rules.kind_rules]]]: a new, empty table at the end of the list. *)
Definition new_rule (t : rule_type) (st : reader_state) : reader_state :=
  let c := rd_config st in
  let rc := default empty_rules (rules c) in
  ReaderState (SecList t)
    (Config (plugin c)
            (Some (set_rule_list t
                     (default [] (rule_list t rc) ++ [empty_rule]) rc))
            (advanced c)).

Definition open_array (name : str) (st : reader_state)
  : option reader_state :=
  if str_eqb name (lit "rules.replace_rules")
  then Some (new_rule KReplace st)
  else if str_eqb name (lit "rules.delete_rules")
  then Some (new_rule KDelete st)
  else if str_eqb name (lit "rules.append_rules")
  then Some (new_rule KAppend st)
  else Some (ReaderState SecOther (rd_config st)).

(** A key may be given once in a table. *)
Definition fresh {A} (old : option A) (new : A) : option (option A) :=
  match old with
  | None => Some (Some new)
  | Some _ => None
  end.

Definition set_rule_key (key : str) (v : toml_value) (r : rule)
  : option rule :=
  match v with
  | TStr s =>
    if str_eqb key (lit "pattern") then
      x ← fresh (r_pattern r) s;
      Some (Rule x (r_replacement r) (r_content r) (r_position r)
                 (r_enabled r) (r_ignore_case r) (r_multiline r)
                 (r_description r))
    else if str_eqb key (lit "replacement") then
      x ← fresh (r_replacement r) s;
      Some (Rule (r_pattern r) x (r_content r) (r_position r)
                 (r_enabled r) (r_ignore_case r) (r_multiline r)
                 (r_description r))
    else if str_eqb key (lit "content") then
      x ← fresh (r_content r) s;
      Some (Rule (r_pattern r) (r_replacement r) x (r_position r)
                 (r_enabled r) (r_ignore_case r) (r_multiline r)
                 (r_description r))
    else if str_eqb key (lit "position") then
      x ← fresh (r_position r) s;
      Some (Rule (r_pattern r) (r_replacement r) (r_content r) x
                 (r_enabled r) (r_ignore_case r) (r_multiline r)
                 (r_description r))
    else if str_eqb key (lit "description") then
      x ← fresh (r_description r) s;
      Some (Rule (r_pattern r) (r_replacement r) (r_content r)
                 (r_position r) (r_enabled r) (r_ignore_case r)
                 (r_multiline r) x)
    else if str_eqb key (lit "enabled") || str_eqb key (lit "ignore_case")
            || str_eqb key (lit "multiline")
    then None
    else Some r
  | TBool b =>
    if str_eqb key (lit "enabled") then
      x ← fresh (r_enabled r) b;
      Some (Rule (r_pattern r) (r_replacement r) (r_content r)
                 (r_position r) x (r_ignore_case r) (r_multiline r)
                 (r_description r))
    else if str_eqb key (lit "ignore_case") then
      x ← fresh (r_ignore_case r) b;
      Some (Rule (r_pattern r) (r_replacement r) (r_content r)
                 (r_position r) (r_enabled r) x (r_multiline r)
                 (r_description r))
    else if str_eqb key (lit "multiline") then
      x ← fresh (r_multiline r) b;
      Some (Rule (r_pattern r) (r_replacement r) (r_content r)
                 (r_position r) (r_enabled r) (r_ignore_case r) x
                 (r_description r))
    else if str_eqb key (lit "pattern") || str_eqb key (lit "replacement")
            || str_eqb key (lit "content") || str_eqb key (lit "position")
            || str_eqb key (lit "description")
    then None
    else Some r
  | TInt _ =>
    if str_eqb key (lit "pattern") || str_eqb key (lit "replacement")
       || str_eqb key (lit "content") || str_eqb key (lit "position")
       || str_eqb key (lit "description") || str_eqb key (lit "enabled")
       || str_eqb key (lit "ignore_case") || str_eqb key (lit "multiline")
    then None
    else Some r
  end.

Definition set_plugin_key (key : str) (v : toml_value) (p : plugin_section)
  : option plugin_section :=
  if str_eqb key (lit "enabled") then
    match v with
    | TBool b => x ← fresh (p_enabled p) b;
                 Some (PluginSection x (p_config_version p))
    | _ => None
    end
  else if str_eqb key (lit "config_version") then
    match v with
    | TStr s => x ← fresh (p_config_version p) s;
                Some (PluginSection (p_enabled p) x)
    | _ => None
    end
  else Some p.

Definition set_advanced_key (key : str) (v : toml_value)
           (a : advanced_section) : option advanced_section :=
  if str_eqb key (lit "max_content_length") then
    match v with
    | TInt z => x ← fresh (max_content_length a) z;
                Some (AdvancedSection x (log_changes a))
    | _ => None
    end
  else if str_eqb key (lit "log_changes") then
    match v with
    | TBool b => x ← fresh (log_changes a) b;
                 Some (AdvancedSection (max_content_length a) x)
    | _ => None
    end
  else Some a.

(** A key of a [[[rules.kind_rules]]] table goes to the last entry of
    the list. *)
Fixpoint update_last (f : rule -> option rule) (l : list rule)
  : option (list rule) :=
  match l with
  | [] => None
  | x :: l' =>
    match l' with
    | [] => match f x with Some y => Some [y] | None => None end
    | _ :: _ =>
      match update_last f l' with
      | Some l'' => Some (x :: l'')
      | None => None
      end
    end
  end.

Definition set_key (key : str) (v : toml_value) (st : reader_state)
  : option reader_state :=
  let c := rd_config st in
  match rd_section st with
  | SecPlugin =>
    p ← set_plugin_key key v (default (PluginSection None None) (plugin c));
    Some (ReaderState SecPlugin (Config (Some p) (rules c) (advanced c)))
  | SecAdvanced =>
    a ← set_advanced_key key v
          (default (AdvancedSection None None) (advanced c));
    Some (ReaderState SecAdvanced (Config (plugin c) (rules c) (Some a)))
  | SecList t =>
    let rc := default empty_rules (rules c) in
    l ← update_last (set_rule_key key v) (default [] (rule_list t rc));
    Some (ReaderState (SecList t)
            (Config (plugin c) (Some (set_rule_list t l rc)) (advanced c)))
  | SecTop | SecRules | SecOther => Some st
  end.

Definition apply_line (tok : toml_line) (st : reader_state)
  : option reader_state :=
  match tok with
  | LBlank => Some st
  | LTable name => open_table name st
  | LArray name => open_array name st
  | LPair key v => set_key key v st
  end.

Definition read_line (l : str) (st : reader_state) : option reader_state :=
  match parse_line l with
  | Some tok => apply_line tok st
  | None => None
  end.

Fixpoint read_lines (ls : list str) (st : reader_state)
  : option reader_state :=
  match ls with
  | [] => Some st
  | l :: ls' =>
    match read_line l st with
    | Some st' => read_lines ls' st'
    | None => None
    end
  end.

Definition read_text (text : str) (st : reader_state)
  : option reader_state :=
  read_lines (split_lines text) st.

(** The reader. *)
Definition toml_read : TomlReader :=
  fun text =>
    match read_text text (ReaderState SecTop empty_config) with
    | Some st => Some (rd_config st)
    | None => None
    end.

(** The characters a TOML document may hold: Unicode scalar values, and
    of the control characters (U+0000 to U+001F, U+007F) only the tab
    and the line feed (a carriage return is allowed before a line feed
    only; the generator writes none).  The others must not appear raw,
    in a comment or in a string. *)
Definition control (c : N) : bool := (c <? 32) || (c =? 127).

Definition toml_char (c : N) : bool :=
  scalar c && (negb (control c) || (c =? TAB) || (c =? LF)).

Definition toml_text (text : str) : bool := forallb toml_char text.

(** The reference reading of a file: that of [toml_read] on a text
    made of the characters a document may hold. *)
Definition toml_reference (text : str) : option config :=
  if toml_text text then toml_read text else None.


(** Characters of a bare key, and the keys the generator writes. *)
Definition bare (c : N) : bool :=
  ((48 <=? c) && (c <=? 57)) || ((65 <=? c) && (c <=? 90))
  || ((97 <=? c) && (c <=? 122)) || (c =? 95) || (c =? 45).

Definition key_ok (key : str) : bool :=
  truthy key && forallb bare key.

(** No line feed in a piece of text. *)
Definition one_line (l : str) : bool :=
  forallb (fun c => negb (LF =? c)) l.

(** What a configuration looks like after [save_config] and a reload:
    the keys the generator writes with a default are present, the keys
    it does not write for that kind of rule are gone, and an empty
    rule list is absent. *)
Definition saved_replace_rule (r : rule) : rule :=
  Rule (Some (get_pattern r)) (Some (get_replacement r)) None None
       (Some (get_enabled r)) (Some (get_ignore_case r))
       (Some (get_multiline r)) (r_description r).

Definition saved_delete_rule (r : rule) : rule :=
  Rule (Some (get_pattern r)) None None None
       (Some (get_enabled r)) (Some (get_ignore_case r))
       (Some (get_multiline r)) (r_description r).

Definition saved_append_rule (r : rule) : rule :=
  Rule None None (Some (get_content r)) (Some (get_position r))
       (Some (get_enabled r)) None None (r_description r).

Definition saved_list (f : rule -> rule) (l : option (list rule))
  : option (list rule) :=
  match l with
  | Some (r :: rs) => Some (map f (r :: rs))
  | _ => None
  end.

Definition saved_config (c : config) : config :=
  Config (plugin c)
         (match rules c with
          | Some rc =>
            Some (RulesSection
                    (saved_list saved_replace_rule (replace_rules rc))
                    (saved_list saved_delete_rule (delete_rules rc))
                    (saved_list saved_append_rule (append_rules rc)))
          | None => None
          end)
         (advanced c).

(** The fields of the data model, read with the defaults of the code. *)
Definition replace_view (r : rule) :=
  (get_pattern r, get_replacement r, get_enabled r, get_ignore_case r,
   get_multiline r, r_description r).

Definition delete_view (r : rule) :=
  (get_pattern r, get_enabled r, get_ignore_case r, get_multiline r,
   r_description r).

Definition append_view (r : rule) :=
  (get_content r, get_position r, get_enabled r, r_description r).

Definition config_view (c : config) :=
  (map replace_view (get_replace_rules c),
   map delete_view (get_delete_rules c),
   map append_view (get_append_rules c),
   plugin c, advanced c).

(** The characters of a decimal integer. *)
Definition digitish (c : N) : bool :=
  ((48 <=? c) && (c <=? 57)) || (c =? 45).

(* ===================================================================== *)
(** ** RegexAddCommand *)
(* ===================================================================== *)

(** [re.compile(pattern)] succeeds. *)
Class ReCompile := re_compile_ok : str -> bool.

(** The rule [_add_replace_rule] builds. *)
Definition new_replace_rule (pattern replacement : str) : rule :=
  Rule (Some pattern) (Some replacement) None None
       (Some true) (Some false) (Some false)
       (Some (lit "替换'" ++ pattern ++ lit "'为'" ++ replacement
              ++ lit "'")).

(** The rule [_add_delete_rule] builds. *)
Definition new_delete_rule (pattern : str) : rule :=
  Rule (Some pattern) None None None
       (Some true) (Some false) (Some false)
       (Some (lit "删除'" ++ pattern ++ lit "'")).

(** The rule [_add_append_rule] builds. *)
Definition new_append_rule (content position : str) : rule :=
  let position_name :=
    if str_eqb position (lit "start") then lit "前缀" else lit "后缀" in
  Rule None None (Some content) (Some position)
       (Some true) None None
       (Some (position_name ++ lit "添加'" ++ content ++ lit "'")).

(** The common part of the three [_add_*_rule] methods: load, make
    sure [config['rules']] and the list exist, append the new rule,
    save.  The result is what [save_config] returned and the store. *)
Definition config_with `{TomlReader} (t : rule_type) (new_rule : rule)
           (st : store) : config :=
  let config := load_config (st_file st) in
  let rc := default empty_rules (rules config) in
  let l := default [] (rule_list t rc) in
  Config (plugin config)
         (Some (set_rule_list t (l ++ [new_rule]) rc))
         (advanced config).

Definition add_rule `{TomlReader} (t : rule_type) (new_rule : rule)
           (st : store) : bool * store :=
  save_config (config_with t new_rule st) st.

(** How a method ends: it returns, or it raises [Exception]. *)
Inductive completion :=
| Returned
| Raised.

(** [_add_replace_rule] and [_add_delete_rule] raise when the save
    fails; [_add_append_rule] logs the failure and returns. *)
Definition _add_replace_rule `{TomlReader} (pattern replacement : str)
           (st : store) : completion * store :=
  let '(saved, st') :=
    add_rule KReplace (new_replace_rule pattern replacement) st in
  (if saved then Returned else Raised, st').

Definition _add_delete_rule `{TomlReader} (pattern : str) (st : store)
  : completion * store :=
  let '(saved, st') := add_rule KDelete (new_delete_rule pattern) st in
  (if saved then Returned else Raised, st').

Definition _add_append_rule `{TomlReader} (content position : str)
           (st : store) : completion * store :=
  let '(_, st') := add_rule KAppend (new_append_rule content position) st in
  (Returned, st').

(** The arguments of [/regex_add] as [execute] uses them: none at all,
    the [--append] or [--prepend] flag with the content found for it
    (empty when there is none), or a pattern with the rest of the line
    as replacement when more than one argument was given. *)
Inductive add_args :=
| AddNothing
| AddAppend (content : str)
| AddPrepend (content : str)
| AddPattern (pattern : str) (replacement : option str).

(** [RegexAddCommand.execute]: the success flag it returns and the
    store afterwards. *)
Definition regex_add `{TomlReader} `{ReCompile} (args : add_args)
           (st : store) : bool * store :=
  match args with
  | AddNothing => (true, st)
  | AddAppend content =>
    if negb (truthy content) then (false, st)
    else
      let '(_, st') := _add_append_rule content (lit "end") st in
      (true, st')
  | AddPrepend content =>
    if negb (truthy content) then (false, st)
    else
      let '(_, st') := _add_append_rule content (lit "start") st in
      (true, st')
  | AddPattern pattern replacement =>
    if negb (re_compile_ok pattern) then (false, st)
    else
      match replacement with
      | Some r =>
        match _add_replace_rule pattern r st with
        | (Returned, st') => (true, st')
        | (Raised, st') => (false, st')
        end
      | None =>
        match _add_delete_rule pattern st with
        | (Returned, st') => (true, st')
        | (Raised, st') => (false, st')
        end
      end
  end.

(* ===================================================================== *)
(** ** RegexToggleCommand *)
(* ===================================================================== *)

(** The configuration [_toggle_plugin_status] hands to [save_config]. *)
Definition config_toggled `{TomlReader} (new_status : bool) (st : store)
  : config :=
  let config := load_config (st_file st) in
  let p := default (PluginSection None None) (plugin config) in
  Config (Some (PluginSection (Some new_status) (p_config_version p)))
         (rules config) (advanced config).

(** [RegexToggleCommand._toggle_plugin_status]. *)
Definition _toggle_plugin_status `{TomlReader} (new_status : bool)
           (st : store) : bool * store :=
  save_config (config_toggled new_status st) st.

(** [RegexToggleCommand.execute]: the success flag, the status it
    announces, and the store afterwards. *)
Definition regex_toggle `{TomlReader} (st : store) : bool * bool * store :=
  let config := load_config (st_file st) in
  let current_status := plugin_enabled config in
  let new_status := negb current_status in
  let '(ok, st') := _toggle_plugin_status new_status st in
  (ok, new_status, st').

(** The rule lists of a configuration as the commands and the handler
    read them. *)
Definition rules_view (c : config) :=
  (map replace_view (get_replace_rules c),
   map delete_view (get_delete_rules c),
   map append_view (get_append_rules c)).

(** The rules of a kind as the code reads them. *)
Definition rules_of (t : rule_type) (c : config) : list rule :=
  match t with
  | KReplace => get_replace_rules c
  | KDelete => get_delete_rules c
  | KAppend => get_append_rules c
  end.


(** The escape of one character, as a table. *)
Definition escape_of (c : N) : str :=
  if c =? BACKSLASH then [BACKSLASH; BACKSLASH]
  else if c =? QUOTE then [BACKSLASH; QUOTE]
  else if c =? LF then [BACKSLASH; 110]
  else if c =? CR then [BACKSLASH; 114]
  else if c =? TAB then [BACKSLASH; 116]
  else [c].

(** A rule with the replacement of a delete rule. *)
Definition as_delete (r : rule) : rule :=
  Rule (r_pattern r) (Some []) (r_content r) (r_position r)
       (r_enabled r) (r_ignore_case r) (r_multiline r) (r_description r).

(** No enabled rule of the list sets a flag. *)
Definition flagless (rs : list rule) : bool :=
  forallb (fun r => negb (get_enabled r) || (rule_flags r =? 0)%Z) rs.

(** The characters of a string that are not white space. *)
Definition ink (s : str) : str :=
  List.filter (fun c => negb (isspace c)) s.

(** [x] occurs in [t] as a run of consecutive characters. *)
Definition factor (x t : str) : Prop := exists a b, t = a ++ x ++ b.

(** An engine for sample runs that accepts exactly the patterns free
    of special characters. *)
Definition literal_compile : ReCompile := plain_pattern.

(** The rule a call of [/regex_add] is about to store, with its kind. *)
Definition added_rule (args : add_args) : option (rule_type * rule) :=
  match args with
  | AddNothing => None
  | AddAppend content => Some (KAppend, new_append_rule content (lit "end"))
  | AddPrepend content =>
    Some (KAppend, new_append_rule content (lit "start"))
  | AddPattern pattern (Some replacement) =>
    Some (KReplace, new_replace_rule pattern replacement)
  | AddPattern pattern None => Some (KDelete, new_delete_rule pattern)
  end.

(** The checks [execute] makes before it stores a rule: a content that
    is not empty, a pattern that compiles. *)
Definition accepted `{ReCompile} (args : add_args) : bool :=
  match args with
  | AddNothing => false
  | AddAppend content | AddPrepend content => truthy content
  | AddPattern pattern _ => re_compile_ok pattern
  end.

#[global] Instance rule_type_eq_dec : EqDecision rule_type.
Proof. solve_decision. Defined.

(** A store holding the file the generator writes for the defaults of
    [config_schema], used to run the commands on a concrete case. *)
Definition sample_store : store :=
  Store (Stored (_generate_toml_content schema_defaults)) true.


(* ===================================================================== *)
(** ** Strings the generator writes as valid TOML *)
(* ===================================================================== *)

(** [_escape_toml_string] escapes the backslash, the quote, the line
    feed, the carriage return and the tab, and writes every other
    character raw.  What it writes between the quotes is a valid basic
    string when the value holds scalar values only and no control
    character besides those three. *)
Definition plain_char (c : N) : bool :=
  scalar c && (negb (control c) || (c =? TAB) || (c =? LF) || (c =? CR)).

Definition plain_str (s : str) : bool := forallb plain_char s.

Definition plain_opt (o : option str) : bool :=
  match o with
  | Some s => plain_str s
  | None => true
  end.

(** The strings the generator writes for a rule of a kind. *)
Definition plain_rule (t : rule_type) (r : rule) : bool :=
  match t with
  | KReplace =>
    plain_str (get_pattern r) && plain_str (get_replacement r)
    && plain_opt (r_description r)
  | KDelete => plain_str (get_pattern r) && plain_opt (r_description r)
  | KAppend =>
    plain_str (get_content r) && plain_str (get_position r)
    && plain_opt (r_description r)
  end.

(** Every string the generator writes for the configuration. *)
Definition plain_config (c : config) : bool :=
  plain_opt (p ← plugin c; p_config_version p)
  && forallb (plain_rule KReplace) (rules_of KReplace c)
  && forallb (plain_rule KDelete) (rules_of KDelete c)
  && forallb (plain_rule KAppend) (rules_of KAppend c).

(* ===================================================================== *)
(** ** A pattern that starts with a double quote *)
(* ===================================================================== *)




(** A lone surrogate, which a Python [str] can hold and UTF-8 cannot
    encode. *)
Definition SURROGATE : N := 55296.
(* ===================================================================== *)
(** * Properties *)
(* ===================================================================== *)

(** ** The literal strings used below *)

Example lit_cjk : lit "这个" = [36825; 20010].
Proof. reflexivity. Qed.

Example sub_empty_matches :
  sub (Star (N.eqb 120)) (lit "-") (lit "abxd") = lit "-a-b--d-".
Proof. reflexivity. Qed.

Example sub_alt_empty :
  sub (Alt Eps (Chr 97)) (lit "-") (lit "a") = lit "---".
Proof. reflexivity. Qed.

Example escape_sample :
  _escape_toml_string [97; QUOTE; BACKSLASH; LF; 98]
  = [97; BACKSLASH; QUOTE; BACKSLASH; BACKSLASH; BACKSLASH; 110; 98].
Proof. reflexivity. Qed.

(** ** The rule stages *)

Section Stages.
Context `{E : ReEngine}.

(** Disabled rules take no part in a stage. *)
Lemma replace_stage_enabled rs x :
  replace_stage rs x = replace_stage (List.filter get_enabled rs) x.
Proof.
  revert x. induction rs as [|r rs IH]; intros x; simpl; [done|].
  destruct (get_enabled r) eqn:He; simpl; [|apply IH].
  rewrite He. simpl. destruct (re_sub _ _ _ _); auto.
Qed.

Lemma delete_stage_enabled rs x :
  delete_stage rs x = delete_stage (List.filter get_enabled rs) x.
Proof.
  revert x. induction rs as [|r rs IH]; intros x; simpl; [done|].
  destruct (get_enabled r) eqn:He; simpl; [|apply IH].
  rewrite He. simpl. destruct (re_sub _ _ _ _); auto.
Qed.

Lemma replace_stage_app rs1 rs2 x :
  replace_stage (rs1 ++ rs2) x = replace_stage rs1 x ≫= replace_stage rs2.
Proof.
  revert x. induction rs1 as [|r rs1 IH]; intros x; simpl; [done|].
  destruct (negb (get_enabled r)); [apply IH|].
  destruct (re_sub _ _ _ _); auto.
Qed.

Lemma delete_stage_app rs1 rs2 x :
  delete_stage (rs1 ++ rs2) x = delete_stage rs1 x ≫= delete_stage rs2.
Proof.
  revert x. induction rs1 as [|r rs1 IH]; intros x; simpl; [done|].
  destruct (negb (get_enabled r)); [apply IH|].
  destruct (re_sub _ _ _ _); auto.
Qed.

Lemma replace_stage_skip_bad b rs x :
  fails_to_compile (get_pattern b) (rule_flags b) ->
  replace_stage (b :: rs) x = replace_stage rs x.
Proof.
  intros Hb. simpl. rewrite Hb. by destruct (negb (get_enabled b)).
Qed.

Lemma delete_stage_skip_bad b rs x :
  fails_to_compile (get_pattern b) (rule_flags b) ->
  delete_stage (b :: rs) x = delete_stage rs x.
Proof.
  intros Hb. simpl. rewrite Hb. by destruct (negb (get_enabled b)).
Qed.

End Stages.

(** The engine for literals is faithful on literals. *)
Lemma literal_engine_faithful : literal_faithful literal_engine.
Proof.
  intros p r s Hp Hr. unfold re_sub, literal_engine.
  by rewrite Hp, Hr.
Qed.

(** ** C6: the global switch *)

(** C6. When the loaded configuration has [plugin.enabled] false, the
    message handler returns at once: whatever the rules and whatever
    the parameters, [params] (and the content under [llm_response]) is
    returned as it was received. *)
Theorem disabled_short_circuit `{R : TomlReader} `{E : ReEngine}
        (f : file) (params : option (gmap string param)) :
  plugin_enabled (load_config f) = false ->
  execute f params = (result_of PluginDisabled, params).
Proof.
  intros Hoff. unfold execute. by rewrite Hoff.
Qed.

Lemma disabled_short_circuit_witness :
  let params :=
    Some (<[K_llm_response :=
             PDict (<[K_content := VStr (lit "不可以")]> ∅)]> ∅) in
  @execute (reader_of (disabled_config schema_replace_rules
                                       schema_delete_rules []))
           literal_engine (Stored []) params
  = (result_of PluginDisabled, params).
Proof.
  intros params.
  apply (@disabled_short_circuit
           (reader_of (disabled_config schema_replace_rules
                                       schema_delete_rules []))
           literal_engine (Stored []) params).
  reflexivity.
Defined.

(** ** C10: what the handler writes *)

Lemma str_eqb_true (a b : str) : str_eqb a b = true <-> a = b.
Proof. unfold str_eqb. apply bool_decide_eq_true. Qed.

Lemma str_eqb_false (a b : str) : str_eqb a b = false <-> a <> b.
Proof. unfold str_eqb. apply bool_decide_eq_false. Qed.

(** C10. The handler either returns [params] as received, or the
    content was a string [x], the transformed and cleaned text [y]
    differs from [x], and the only change is that text stored under
    ["content"] of [llm_response]; every other key of [llm_response]
    and every other key of [params] keeps its value. *)
Theorem execute_frame `{R : TomlReader} `{E : ReEngine}
        (f : file) (params : option (gmap string param)) :
  let cfg := load_config f in
  let params' := (execute f params).2 in
  (params' = params
   \/ exists ps d x y,
       params = Some ps
       /\ ps !! K_llm_response = Some (PDict d)
       /\ d !! K_content = Some (VStr x)
       /\ transform cfg x = Some y
       /\ y <> x
       /\ params' =
          Some (<[K_llm_response :=
                   PDict (<[K_content := VStr y]> d)]> ps))
  /\ delete K_content <$> response_of params'
     = delete K_content <$> response_of params
  /\ delete K_llm_response <$> params'
     = delete K_llm_response <$> params.
Proof.
  intros cfg params'. subst params'. unfold execute. fold cfg.
  destruct (negb (plugin_enabled cfg)); [by auto|].
  destruct params as [ps|]; [|by auto].
  case_bool_decide; [by auto|].
  destruct (ps !! K_llm_response) as [[|d]|] eqn:Hd; [by auto| |by auto].
  case_bool_decide; [by auto|].
  destruct (d !! K_content) as [[|x|[]]|] eqn:Hx; try by auto.
  destruct (negb (truthy x)); [by auto|].
  destruct (transform cfg x) as [y|] eqn:Ht; [|by auto].
  destruct (str_eqb y x) eqn:Hc; simpl; [by auto|].
  apply str_eqb_false in Hc.
  split; [right; by exists ps, d, x, y|].
  split.
  - simpl. rewrite lookup_insert_eq, Hd. simpl.
    by rewrite delete_insert_eq.
  - by rewrite delete_insert_eq.
Qed.

(** When cleaning gives back the original text nothing is written. *)
Lemma execute_unchanged `{R : TomlReader} `{E : ReEngine}
      (f : file) ps d x :
  ps !! K_llm_response = Some (PDict d) ->
  d !! K_content = Some (VStr x) ->
  transform (load_config f) x = Some x ->
  (execute f (Some ps)).2 = Some ps.
Proof.
  intros Hd Hx Hsame. unfold execute.
  destruct (negb (plugin_enabled _)); [done|].
  case_bool_decide; [done|]. rewrite Hd.
  case_bool_decide; [done|]. rewrite Hx.
  destruct (negb (truthy x)); [done|].
  rewrite Hsame. unfold str_eqb. by rewrite bool_decide_eq_true_2.
Qed.

(** ** C9: a rule that does not compile *)

(** C9 (divergence). A rule whose pattern fails to compile with an
    exception other than [re.error] is not isolated.  With the enabled
    replace rules [a{4294967296} -> x] and [不可以 -> 可以], in either
    order, the handler ends in its outer handler: it reports failure and
    leaves [这个问题不可以解决] as it is, while with the valid rule alone
    it writes [这个问题可以解决].  The test command fails in the same
    way. *)
Theorem fault_isolation_misses_other_errors :
  let bad := replace_rule "a{4294967296}" "x" false in
  let good := replace_rule "不可以" "可以" false in
  let x := lit "这个问题不可以解决" in
  let run rs :=
    @execute (reader_of (rules_config rs [] [])) overflow_engine
             (Stored []) (content_params x) in
  run [bad; good] = (result_of Failed, content_params x)
  /\ run [good; bad] = (result_of Failed, content_params x)
  /\ run [good] = (result_of Processed, content_params (lit "这个问题可以解决"))
  /\ @regex_test (reader_of (rules_config [bad; good] [] [])) overflow_engine
                 (Store (Stored []) true) x
     = (TestFailed, Store (Stored []) true).
Proof. vm_compute. repeat split; reflexivity. Qed.

(** ** C2: the append loop *)

Lemma append_stage_shape_gen (rs : list rule) (pre buf post : str) :
  append_stage rs (pre ++ buf ++ post)
  = concat (rev (start_contents rs)) ++ pre ++ buf ++ post
    ++ concat (end_contents rs).
Proof.
  revert pre post. induction rs as [|r rs IH]; intros pre post.
  - simpl. by rewrite !app_nil_r.
  - simpl. unfold start_contents, end_contents in *. simpl.
    destruct (get_enabled r); simpl; [|apply IH].
    fold (is_start r). destruct (is_start r) eqn:Hp; simpl.
    + rewrite app_assoc. rewrite IH.
      rewrite concat_app. simpl. rewrite app_nil_r.
      by rewrite <- !app_assoc.
    + replace ((pre ++ buf ++ post) ++ get_content r)
        with (pre ++ buf ++ (post ++ get_content r))
        by (by rewrite <- !app_assoc).
      rewrite IH. by rewrite <- !app_assoc.
Qed.

(** C2 (as the code has it). The append loop wraps the buffer: the
    contents of the enabled start rules stand before it in reverse
    list order, so the first start rule processed is the one next to
    the original text and the last one processed is outermost; the
    contents of the enabled end rules follow it in list order. *)
Theorem append_stage_shape (rs : list rule) (buf : str) :
  append_stage rs buf
  = concat (rev (start_contents rs)) ++ buf ++ concat (end_contents rs).
Proof.
  pose proof (append_stage_shape_gen rs [] buf []) as Hg.
  simpl in Hg. by rewrite app_nil_r in Hg.
Qed.

(** C2 as stated fails: with start rules [a] then [b] the text becomes
    [bax]; the content of [b], processed last, is not the one next to
    the original text. *)
Lemma append_last_start_not_innermost :
  append_stage [append_rule "a" "start"; append_rule "b" "start"] (lit "x")
  = lit "bax"
  /\ ~ exists pre,
        append_stage [append_rule "a" "start"; append_rule "b" "start"]
                     (lit "x")
        = pre ++ lit "b" ++ lit "x".
Proof.
  split; [reflexivity|].
  intros [pre Hpre]. vm_compute in Hpre.
  destruct pre as [|c1 [|c2 [|c3 pre]]]; simpl in Hpre; try discriminate.
  - injection Hpre as _ _ Hnil. destruct pre; discriminate.
Qed.

(** ** C4: the test command against the handler *)

Section TestCommand.
Context `{R : TomlReader} `{E : ReEngine}.

Lemma test_replace_stage_flagless rs x :
  test_replace_stage rs x = replace_stage (map without_flags rs) x.
Proof.
  revert x. induction rs as [|r rs IH]; intros x; simpl; [done|].
  change (get_enabled (without_flags r)) with (get_enabled r).
  destruct (negb (get_enabled r)); [apply IH|].
  change (rule_flags (without_flags r)) with 0%Z.
  change (get_pattern (without_flags r)) with (get_pattern r).
  change (get_replacement (without_flags r)) with (get_replacement r).
  destruct (re_sub _ _ _ _); auto.
Qed.

Lemma test_delete_stage_flagless rs x :
  test_delete_stage rs x = delete_stage (map without_flags rs) x.
Proof.
  revert x. induction rs as [|r rs IH]; intros x; simpl; [done|].
  change (get_enabled (without_flags r)) with (get_enabled r).
  destruct (negb (get_enabled r)); [apply IH|].
  change (rule_flags (without_flags r)) with 0%Z.
  change (get_pattern (without_flags r)) with (get_pattern r).
  destruct (re_sub _ _ _ _); auto.
Qed.

(** What the test command computes: the replace and delete loops on
    the stored rules with both flags dropped, no append rule, no
    clean-up, and the store left as it was. *)
Lemma regex_test_spec (st : store) (text : str) :
  let c := load_config (st_file st) in
  let out := replace_stage (map without_flags (get_replace_rules c)) text
             ≫= delete_stage (map without_flags (get_delete_rules c)) in
  regex_test st text
  = (match out with
     | Some out => TestDone (mkTestResult text out (negb (str_eqb out text)))
     | None => TestFailed
     end, st).
Proof.
  intros c out. subst out. unfold regex_test. fold c.
  rewrite test_replace_stage_flagless.
  destruct (replace_stage _ text) as [t|]; [|done]. simpl.
  rewrite test_delete_stage_flagless.
  by destruct (delete_stage _ t).
Qed.

End TestCommand.

(** C4 (divergence). With one enabled replace rule [a -> b] that asks
    for [ignore_case], the handler's replace and delete stages turn
    [A] into [b] while the test command reports [A] unchanged: the
    test command calls [re.sub] without the rule's flags. *)
Theorem test_preview_ignores_flags :
  let c := rules_config [replace_rule "a" "b" true] [] [] in
  let st := Store (Stored []) true in
  @replace_delete literal_engine c (lit "A") = Some (lit "b")
  /\ @regex_test (reader_of c) literal_engine st (lit "A")
     = (TestDone (mkTestResult (lit "A") (lit "A") false), st).
Proof. split; reflexivity. Qed.

(** ** C3: loading without a usable file *)

(** C3 (as the code has it). When the file is missing, cannot be read
    or is rejected by the reader, [load_config] returns the empty
    dictionary and raises nothing; an error is logged unless the file
    was simply missing.  Read through the handler's defaults this is
    an enabled plugin with no replace, delete or append rule and
    [log_changes] off; no [max_content_length] is set. *)
Theorem load_config_fallback `{R : TomlReader} (f : file) :
  load_falls_back f = true ->
  load_config_logged f
  = (empty_config, match f with Missing => [] | _ => [LoadFailed] end)
  /\ plugin_enabled (load_config f) = true
  /\ get_replace_rules (load_config f) = []
  /\ get_delete_rules (load_config f) = []
  /\ get_append_rules (load_config f) = []
  /\ get_log_changes (load_config f) = false
  /\ advanced (load_config f) = None.
Proof.
  intros Hf. unfold load_config.
  assert (load_config_logged f
          = (empty_config,
             match f with Missing => [] | _ => [LoadFailed] end)) as ->.
  { destruct f as [| |text]; simpl in *; try done.
    by destruct (toml_load text). }
  done.
Qed.

Lemma load_config_fallback_witness :
  @load_config_logged reader_reject (Stored (lit "enabled = "))
  = (empty_config, [LoadFailed])
  /\ get_replace_rules
       (@load_config reader_reject (Stored (lit "enabled = "))) = [].
Proof.
  destruct (@load_config_fallback reader_reject
              (Stored (lit "enabled = ")) eq_refl)
    as (Hlog & _ & Hrep & _).
  split; [exact Hlog | exact Hrep].
Defined.

(** C3 as stated fails: with the file missing the rule lists are
    empty, not the sample rules of [config_schema]. *)
Lemma load_missing_has_no_sample_rules :
  @load_config reader_reject Missing = empty_config
  /\ get_replace_rules (@load_config reader_reject Missing) = []
  /\ get_delete_rules (@load_config reader_reject Missing) = []
  /\ get_replace_rules (@load_config reader_reject Missing)
     <> get_replace_rules schema_defaults
  /\ get_delete_rules (@load_config reader_reject Missing)
     <> get_delete_rules schema_defaults.
Proof. repeat split; done. Qed.

(** ** C7: removing a rule by index *)

Lemma stored_rules_none `{R : TomlReader} t st :
  (rc ← rules (load_config (st_file st)); rule_list t rc) = None ->
  forall index, _delete_rule t index st = (false, st).
Proof.
  intros Hn index. unfold _delete_rule.
  destruct (rules (load_config (st_file st))) as [rc|]; [|done].
  simpl in Hn. by rewrite Hn.
Qed.

Lemma rule_list_set_same t l rc : rule_list t (set_rule_list t l rc) = Some l.
Proof. by destruct t. Qed.




(** ** C1: scenario A *)

Lemma filter_singleton_enabled (rs : list rule) (r : rule) :
  List.filter get_enabled rs = [r] -> get_enabled r = true.
Proof.
  intros Hf.
  assert (In r (List.filter get_enabled rs)) as Hin
    by (rewrite Hf; by left).
  by apply filter_In in Hin as [_ ?].
Qed.

(** C1 (as the code has it). For the text [这个问题不可以解决], when the
    only enabled replace rule maps [不可以] to [可以] and the only
    enabled delete rule has pattern [问题] (both without flags), the
    replace and delete stages give [这个可以解决]: the replacement
    [可以] stays in the text. *)
Theorem scenario_A `{E : ReEngine} (c : config) (r d : rule) :
  literal_faithful E ->
  List.filter get_enabled (get_replace_rules c) = [r] ->
  get_pattern r = lit "不可以" ->
  get_replacement r = lit "可以" ->
  rule_flags r = 0%Z ->
  List.filter get_enabled (get_delete_rules c) = [d] ->
  get_pattern d = lit "问题" ->
  rule_flags d = 0%Z ->
  replace_delete c (lit "这个问题不可以解决") = Some (lit "这个可以解决").
Proof.
  intros HE Hrs Hp Hrepl Hfl Hds Hdp Hdfl. unfold replace_delete.
  rewrite replace_stage_enabled, Hrs.
  cbn [replace_stage].
  rewrite (filter_singleton_enabled _ _ Hrs). cbn [negb].
  rewrite Hp, Hrepl, Hfl.
  rewrite (HE (lit "不可以") (lit "可以")) by reflexivity.
  cbn [mbind option_bind].
  rewrite delete_stage_enabled, Hds. cbn [delete_stage].
  rewrite (filter_singleton_enabled _ _ Hds). cbn [negb].
  rewrite Hdp, Hdfl.
  rewrite (HE (lit "问题") []) by reflexivity.
  reflexivity.
Qed.

Lemma scenario_A_witness :
  @replace_delete literal_engine
    (rules_config [replace_rule "不可以" "可以" false]
                  [delete_rule "问题"] [])
    (lit "这个问题不可以解决")
  = Some (lit "这个可以解决").
Proof.
  apply (@scenario_A literal_engine
           (rules_config [replace_rule "不可以" "可以" false]
                         [delete_rule "问题"] [])
           (replace_rule "不可以" "可以" false) (delete_rule "问题"));
    solve [ exact literal_engine_faithful | reflexivity ].
Defined.

(** C1 as stated fails: on that text the two stages do not give
    [这个解决]. *)
Lemma scenario_A_not_as_stated :
  @replace_delete literal_engine
    (rules_config [replace_rule "不可以" "可以" false]
                  [delete_rule "问题"] [])
    (lit "这个问题不可以解决")
  <> Some (lit "这个解决").
Proof. vm_compute. discriminate. Qed.

(** ** The substitution loop *)

Section SubLoop.

Lemma star_longest p k s x :
  k (skip p s) = Some x -> star p k s = Some x.
Proof.
  induction s as [|c s IH]; simpl; [done|].
  destruct (p c); [|done]. intros Hk. by rewrite (IH Hk).
Qed.

Lemma star_reject p k s :
  (forall c t, p c = true -> k (c :: t) = None) ->
  star p k s = k (skip p s).
Proof.
  intros Hk. induction s as [|c s IH]; simpl; [done|].
  destruct (p c) eqn:Hc; [|done].
  rewrite IH. destruct (k (skip p s)); [done|]. by apply Hk.
Qed.

Lemma star_result p k s x :
  star p k s = Some x ->
  exists t, k t = Some x /\ (length t <= length s)%nat.
Proof.
  induction s as [|c s IH]; simpl.
  - intros Hk. by exists [].
  - destruct (p c).
    + destruct (star p k s) as [r|] eqn:Hs.
      * intros [= ->]. destruct (IH eq_refl) as (t & Ht & Hlen).
        exists t. split; [done|lia].
      * intros Hk. by exists (c :: s).
    + intros Hk. by exists (c :: s).
Qed.

Lemma match_k_result r s k x :
  match_k r s k = Some x ->
  exists t, k t = Some x /\ (length t <= length s)%nat.
Proof.
  revert s k. induction r as [|p|r1 IH1 r2 IH2|r1 IH1 r2 IH2|p|p];
    intros s k; simpl.
  - intros Hk. by exists s.
  - destruct s as [|c s]; [done|]. destruct (p c); [|done].
    intros Hk. exists s. split; [done|simpl; lia].
  - intros H1. apply IH1 in H1 as (t1 & H2 & Hl1).
    apply IH2 in H2 as (t2 & Hk & Hl2). exists t2. split; [done|lia].
  - destruct (match_k r1 s k) eqn:H1.
    + intros [= ->]. by apply IH1.
    + apply IH2.
  - apply star_result.
  - destruct s as [|c s]; [done|]. destruct (p c); [|done].
    intros Hs. apply star_result in Hs as (t & Hk & Hl).
    exists t. split; [done|simpl; lia].
Qed.

Lemma match_at_length r ma s rest :
  match_at r ma s = Some rest ->
  (length rest <= length s)%nat
  /\ (ma = true -> (length rest < length s)%nat).
Proof.
  unfold match_at. intros Hm.
  apply match_k_result in Hm as (t & Hk & Hl).
  destruct ma; simpl in Hk.
  - destruct (Nat.eqb_spec (length t) (length s)); [done|].
    injection Hk as <-. split; [done|]. intros _. lia.
  - injection Hk as <-. split; [done|]. done.
Qed.

(** Past the point where the loop has enough fuel to finish, more fuel
    does not change the outcome. *)
Lemma subx_S n r repl (ma : bool) (s : str) :
  (2 * length s + (if ma then 0 else 1) <= n)%nat ->
  subx (S n) r repl ma s = subx n r repl ma s.
Proof.
  revert ma s. induction n as [|n IH]; intros ma s Hn.
  - destruct s; [|simpl in Hn; lia]. destruct ma; [|simpl in Hn; lia].
    simpl. destruct (match_at r true []) as [rest|] eqn:Hm; [|done].
    apply match_at_length in Hm as [_ Hlt]. specialize (Hlt eq_refl).
    simpl in Hlt. lia.
  - change (subx (S (S n)) r repl ma s)
      with (match match_at r ma s with
            | Some rest =>
              repl ++ subx (S n) r repl (length rest =? length s)%nat rest
            | None =>
              match s with
              | [] => []
              | c :: s' => c :: subx (S n) r repl false s'
              end
            end).
    change (subx (S n) r repl ma s)
      with (match match_at r ma s with
            | Some rest =>
              repl ++ subx n r repl (length rest =? length s)%nat rest
            | None =>
              match s with
              | [] => []
              | c :: s' => c :: subx n r repl false s'
              end
            end).
    destruct (match_at r ma s) as [rest|] eqn:Hm.
    + f_equal. apply IH.
      apply match_at_length in Hm as [Hle Hlt].
      destruct (Nat.eqb_spec (length rest) (length s)) as [Heq|Hne].
      * destruct ma; [specialize (Hlt eq_refl); lia|]. lia.
      * destruct ma; lia.
    + destruct s as [|c s']; [done|]. f_equal. apply IH.
      simpl in Hn. destruct ma; lia.
Qed.

Lemma subx_enough n r repl (ma : bool) (s : str) :
  (2 * length s + (if ma then 0 else 1) <= n)%nat ->
  subx n r repl ma s
  = subx (2 * length s + (if ma then 0 else 1)) r repl ma s.
Proof.
  intros Hn. induction Hn as [|n Hn IH]; [done|].
  by rewrite subx_S.
Qed.

(** The total function [sub] finishes: its result is the one of the
    loop run with any larger amount of fuel. *)
Lemma sub_fuel n r repl (s : str) :
  (2 * length s + 2 <= n)%nat -> subx n r repl false s = sub r repl s.
Proof.
  intros Hn. unfold sub.
  rewrite (subx_enough n) by lia.
  by rewrite (subx_enough (2 * length s + 2)) by lia.
Qed.

Lemma sub_nil r repl :
  match_at r false [] = None -> sub r repl [] = [].
Proof. intros Hm. unfold sub. simpl. by rewrite Hm. Qed.

Lemma subx_step n r repl ma s :
  subx (S n) r repl ma s
  = match match_at r ma s with
    | Some rest => repl ++ subx n r repl (length rest =? length s)%nat rest
    | None =>
      match s with
      | [] => []
      | c :: s' => c :: subx n r repl false s'
      end
    end.
Proof. reflexivity. Qed.

Lemma sub_match r repl s rest :
  match_at r false s = Some rest ->
  (length rest < length s)%nat ->
  sub r repl s = repl ++ sub r repl rest.
Proof.
  intros Hm Hlt. unfold sub.
  replace (2 * length s + 2)%nat with (S (2 * length s + 1)) by lia.
  rewrite subx_step, Hm. f_equal.
  destruct (Nat.eqb_spec (length rest) (length s)); [lia|].
  rewrite (subx_enough (2 * length s + 1)) by lia.
  by rewrite (subx_enough (2 * length rest + 2)) by lia.
Qed.

Lemma sub_skip r repl c s :
  match_at r false (c :: s) = None ->
  sub r repl (c :: s) = c :: sub r repl s.
Proof.
  intros Hm. unfold sub.
  replace (2 * length (c :: s) + 2)%nat
    with (S (2 * length (c :: s) + 1)) by lia.
  rewrite subx_step, Hm. f_equal.
  rewrite (subx_enough (2 * length (c :: s) + 1)) by (simpl; lia).
  by rewrite (subx_enough (2 * length s + 2)) by lia.
Qed.

End SubLoop.

(** ** The four substitutions of the clean-up pass *)

Section CleanUp.

Local Abbreviation collapse := (sub re_blank_lines [LF; LF]).
Local Abbreviation squash := (sub re_hspaces [SP]).
Local Abbreviation trim_start := (sub re_line_start [LF]).
Local Abbreviation trim_end := (sub re_line_end [LF]).

Lemma skip_length p s : (length (skip p s) <= length s)%nat.
Proof.
  induction s as [|c s IH]; simpl; [done|].
  destruct (p c); simpl; lia.
Qed.

Lemma skip_starts p s : starts p (skip p s) = false.
Proof.
  induction s as [|c s IH]; simpl; [done|].
  destruct (p c) eqn:Hc; [done|]. simpl. done.
Qed.

Lemma skip_id p s : starts p s = false -> skip p s = s.
Proof. destruct s as [|c s]; simpl; [done|]. by intros ->. Qed.

Lemma hspace_isspace c : is_hspace c = true -> isspace c = true.
Proof.
  unfold is_hspace, SP, TAB. intros H.
  apply orb_true_iff in H as [H|H]; apply N.eqb_eq in H; by subst.
Qed.

Lemma hspace_not_lf c : is_hspace c = true -> (LF =? c) = false.
Proof.
  unfold is_hspace, SP, TAB, LF. intros H.
  apply orb_true_iff in H as [H|H]; apply N.eqb_eq in H; by subst.
Qed.

Lemma lf_isspace c : (LF =? c) = true -> isspace c = true.
Proof. intros H. apply N.eqb_eq in H. by subst. Qed.

Lemma lf_not_hspace c : (LF =? c) = true -> is_hspace c = false.
Proof. intros H. apply N.eqb_eq in H. by subst. Qed.

Lemma hspace_cases c : is_hspace c = true -> c = SP \/ c = TAB.
Proof.
  unfold is_hspace. intros H.
  apply orb_true_iff in H as [H|H]; apply N.eqb_eq in H; auto.
Qed.

Lemma tab_hspace c : (c =? TAB) = true -> is_hspace c = true.
Proof. intros H. apply N.eqb_eq in H. by subst. Qed.

Lemma isspace_LF : isspace LF = true.
Proof. reflexivity. Qed.

Lemma hspace_SP : is_hspace SP = true.
Proof. reflexivity. Qed.

Lemma hspace_LF : is_hspace LF = false.
Proof. reflexivity. Qed.

Lemma SP_not_TAB : (SP =? TAB) = false.
Proof. reflexivity. Qed.

Lemma LF_eqb_LF : (LF =? LF) = true.
Proof. reflexivity. Qed.

Local Opaque isspace is_hspace LF SP TAB.
Local Arguments N.eqb : simpl never.

(** *** Where each pattern matches *)

Lemma match_hspaces s :
  match_at re_hspaces false s
  = match s with
    | c :: s' => if is_hspace c then Some (skip is_hspace s') else None
    | [] => None
    end.
Proof.
  unfold match_at. simpl. destruct s as [|c s']; [done|].
  destruct (is_hspace c); [|done]. by apply star_longest.
Qed.

Lemma match_line_start s :
  match_at re_line_start false s
  = match s with
    | c :: s' =>
      if (LF =? c) && starts is_hspace s'
      then Some (skip is_hspace s') else None
    | [] => None
    end.
Proof.
  unfold match_at. simpl. destruct s as [|c s']; [done|].
  destruct (LF =? c); [|done]. simpl.
  destruct s' as [|c2 s'']; [done|]. simpl.
  destruct (is_hspace c2); [|done]. by apply star_longest.
Qed.

Lemma match_line_end s :
  match_at re_line_end false s
  = match s with
    | c :: s' =>
      if is_hspace c && hrun_lf s'
      then Some (tail (skip is_hspace s')) else None
    | [] => None
    end.
Proof.
  unfold match_at. simpl. destruct s as [|c s']; [done|].
  destruct (is_hspace c); [|done]. simpl.
  rewrite star_reject.
  2: { intros c' t Hc'. by rewrite (hspace_not_lf _ Hc'). }
  clear c. induction s' as [|c s' IH]; simpl; [done|].
  destruct (is_hspace c) eqn:Hc; [apply IH|].
  by destruct (LF =? c).
Qed.

Lemma star_then_lf (kin : str -> option str) s :
  (forall t, kin t = Some (skip isspace t)) ->
  star isspace
    (fun s' =>
       match s' with
       | [] => None
       | c :: s'' => if LF =? c then kin s'' else None
       end) s
  = if lf_in_run s then Some (skip isspace s) else None.
Proof.
  intros Hkin. induction s as [|c s IH]; simpl; [done|].
  destruct (isspace c) eqn:Hw; simpl.
  - rewrite IH. destruct (lf_in_run s).
    + by rewrite orb_true_r.
    + rewrite orb_false_r.
      destruct (LF =? c); [|done]. apply Hkin.
  - destruct (LF =? c) eqn:Hc; [|done].
    apply lf_isspace in Hc. congruence.
Qed.

Lemma match_blank_lines s :
  match_at re_blank_lines false s
  = match s with
    | c :: s' =>
      if (LF =? c) && lf_in_run s'
      then Some (skip isspace s') else None
    | [] => None
    end.
Proof.
  unfold match_at. simpl. destruct s as [|c s']; [done|].
  destruct (LF =? c); [|done]. simpl.
  apply (star_then_lf (star isspace _)).
  intros t. by apply star_longest.
Qed.

(** *** The substitutions as recursive equations *)

Lemma squash_nil : squash [] = [].
Proof. reflexivity. Qed.

Lemma squash_cons c s :
  squash (c :: s)
  = if is_hspace c then SP :: squash (skip is_hspace s)
    else c :: squash s.
Proof.
  destruct (is_hspace c) eqn:Hc.
  - apply (sub_match _ [SP]).
    + by rewrite match_hspaces, Hc.
    + pose proof (skip_length is_hspace s). simpl. lia.
  - apply sub_skip. by rewrite match_hspaces, Hc.
Qed.

Lemma trim_start_nil : trim_start [] = [].
Proof. reflexivity. Qed.

Lemma trim_start_cons c s :
  trim_start (c :: s)
  = if (LF =? c) && starts is_hspace s
    then LF :: trim_start (skip is_hspace s)
    else c :: trim_start s.
Proof.
  destruct ((LF =? c) && starts is_hspace s) eqn:Hc.
  - apply (sub_match _ [LF]).
    + by rewrite match_line_start, Hc.
    + pose proof (skip_length is_hspace s). simpl. lia.
  - apply sub_skip. by rewrite match_line_start, Hc.
Qed.

Lemma trim_end_nil : trim_end [] = [].
Proof. reflexivity. Qed.

Lemma trim_end_cons c s :
  trim_end (c :: s)
  = if is_hspace c && hrun_lf s
    then LF :: trim_end (tail (skip is_hspace s))
    else c :: trim_end s.
Proof.
  destruct (is_hspace c && hrun_lf s) eqn:Hc.
  - apply (sub_match _ [LF]).
    + by rewrite match_line_end, Hc.
    + pose proof (skip_length is_hspace s).
      destruct (skip is_hspace s); simpl in *; lia.
  - apply sub_skip. by rewrite match_line_end, Hc.
Qed.

Lemma collapse_nil : collapse [] = [].
Proof. reflexivity. Qed.

Lemma collapse_cons c s :
  collapse (c :: s)
  = if (LF =? c) && lf_in_run s
    then LF :: LF :: collapse (skip isspace s)
    else c :: collapse s.
Proof.
  destruct ((LF =? c) && lf_in_run s) eqn:Hc.
  - apply (sub_match _ [LF; LF]).
    + by rewrite match_blank_lines, Hc.
    + pose proof (skip_length isspace s). simpl. lia.
  - apply sub_skip. by rewrite match_blank_lines, Hc.
Qed.

(** *** Heads are kept *)

Lemma starts_collapse p s : starts p (collapse s) = starts p s.
Proof.
  destruct s as [|c s]; [done|]. rewrite collapse_cons.
  destruct (LF =? c) eqn:Hc; [|done].
  apply N.eqb_eq in Hc as <-. by destruct (lf_in_run s).
Qed.

Lemma starts_trim_start p s : starts p (trim_start s) = starts p s.
Proof.
  destruct s as [|c s]; [done|]. rewrite trim_start_cons.
  destruct (LF =? c) eqn:Hc; [|done].
  apply N.eqb_eq in Hc as <-. by destruct (starts is_hspace s).
Qed.

Lemma starts_squash_hspace s :
  starts is_hspace (squash s) = starts is_hspace s.
Proof.
  destruct s as [|c s]; [done|]. rewrite squash_cons.
  destruct (is_hspace c) eqn:Hc; simpl; [|done].
  by rewrite hspace_SP.
Qed.

Lemma lf_in_run_starts s : starts isspace s = false -> lf_in_run s = false.
Proof. destruct s as [|c s]; simpl; [done|]. by intros ->. Qed.

Lemma lf_in_run_nonempty s :
  lf_in_run s = true -> exists c s', s = c :: s' /\ isspace c = true.
Proof.
  destruct s as [|c s]; simpl; [done|].
  intros H. apply andb_true_iff in H as [H _]. by exists c, s.
Qed.

Lemma hrun_lf_skip s :
  hrun_lf s = true -> exists t, skip is_hspace s = LF :: t.
Proof.
  induction s as [|c s IH]; simpl; [done|].
  destruct (is_hspace c); [done|].
  intros H. apply N.eqb_eq in H as <-. by exists s.
Qed.

Lemma lf_in_run_collapse s : lf_in_run (collapse s) = lf_in_run s.
Proof.
  induction s as [|c s IH]; [done|]. rewrite collapse_cons.
  destruct ((LF =? c) && lf_in_run s) eqn:Hc.
  - apply andb_true_iff in Hc as [Hc _]. apply N.eqb_eq in Hc as <-.
    simpl. by rewrite isspace_LF, LF_eqb_LF.
  - simpl. by rewrite IH.
Qed.

(** *** A string that satisfies a local condition is a fixed point *)

Lemma squash_fixed s : ok_hspaces s = true -> squash s = s.
Proof.
  induction s as [|c s IH]; [done|]. simpl.
  intros H. apply andb_true_iff in H as [H Hs].
  apply andb_true_iff in H as [Htab Hrun].
  rewrite squash_cons. destruct (is_hspace c) eqn:Hc.
  - simpl in Hrun. apply negb_true_iff in Hrun.
    rewrite (skip_id _ _ Hrun), (IH Hs).
    destruct (hspace_cases _ Hc) as [->| ->]; [done|].
    apply negb_true_iff in Htab. by rewrite N.eqb_refl in Htab.
  - by rewrite (IH Hs).
Qed.

Lemma trim_start_fixed s : ok_line_start s = true -> trim_start s = s.
Proof.
  induction s as [|c s IH]; [done|]. simpl.
  intros H. apply andb_true_iff in H as [Hc Hs].
  apply negb_true_iff in Hc.
  by rewrite trim_start_cons, Hc, (IH Hs).
Qed.

Lemma ok_line_end_hrun s :
  ok_line_end s = true -> starts is_hspace s = true -> hrun_lf s = false.
Proof.
  induction s as [|c s IH]; simpl; [done|].
  intros H Hc. rewrite Hc in *. simpl in H.
  apply andb_true_iff in H as [Hlf Hs].
  destruct s as [|c2 s]; [done|]. simpl in *.
  destruct (is_hspace c2) eqn:Hc2.
  - by apply IH.
  - by apply negb_true_iff in Hlf.
Qed.

Lemma trim_end_fixed s : ok_line_end s = true -> trim_end s = s.
Proof.
  induction s as [|c s IH]; [done|].
  intros H. pose proof (ok_line_end_hrun _ H) as Hrun.
  simpl in H, Hrun. apply andb_true_iff in H as [_ Hs].
  rewrite trim_end_cons. destruct (is_hspace c) eqn:Hc.
  - rewrite (Hrun eq_refl). simpl. by rewrite (IH Hs).
  - simpl. by rewrite (IH Hs).
Qed.

Lemma collapse_fixed s : ok_blank_lines s = true -> collapse s = s.
Proof.
  induction s as [|c s IH]; [done|]. simpl.
  intros H. apply andb_true_iff in H as [Hc Hs].
  specialize (IH Hs). rewrite collapse_cons.
  destruct ((LF =? c) && lf_in_run s) eqn:Hm; [|by rewrite IH].
  simpl in Hc. apply andb_true_iff in Hc as [Hlf Hu].
  apply andb_true_iff in Hm as [Hc _]. apply N.eqb_eq in Hc as <-.
  destruct s as [|c2 u]; [done|]. simpl in Hlf, Hu.
  apply N.eqb_eq in Hlf as <-. apply negb_true_iff in Hu.
  simpl. rewrite isspace_LF, (skip_id _ _ Hu).
  rewrite collapse_cons, (lf_in_run_starts _ Hu), andb_false_r in IH.
  by injection IH as ->.
Qed.

(** *** Each substitution establishes its local condition *)

Lemma by_length (P : str -> Prop) :
  (forall s, (forall t, (length t < length s)%nat -> P t) -> P s) ->
  forall s, P s.
Proof.
  intros Hstep s. remember (length s) as n eqn:Hn.
  revert s Hn. induction n as [n IH] using lt_wf_ind.
  intros s ->. apply Hstep. intros t Ht. by apply (IH (length t)).
Qed.

Lemma squash_ok s : ok_hspaces (squash s) = true.
Proof.
  induction s as [s IH] using by_length.
  destruct s as [|c s]; [done|]. rewrite squash_cons.
  destruct (is_hspace c) eqn:Hc; simpl.
  - rewrite SP_not_TAB, starts_squash_hspace, skip_starts, andb_false_r.
    simpl. apply IH. pose proof (skip_length is_hspace s). simpl. lia.
  - rewrite Hc. simpl.
    destruct (c =? TAB) eqn:Ht.
    { apply tab_hspace in Ht. congruence. }
    simpl. apply IH. simpl. lia.
Qed.

Lemma trim_start_ok s : ok_line_start (trim_start s) = true.
Proof.
  induction s as [s IH] using by_length.
  destruct s as [|c s]; [done|]. rewrite trim_start_cons.
  destruct ((LF =? c) && starts is_hspace s) eqn:Hc; simpl.
  - rewrite starts_trim_start, skip_starts, andb_false_r. simpl.
    apply IH. pose proof (skip_length is_hspace s). simpl. lia.
  - rewrite starts_trim_start, Hc. simpl. apply IH. simpl. lia.
Qed.

Lemma trim_end_no_lf s :
  hrun_lf s = false -> starts (N.eqb LF) (trim_end s) = false.
Proof.
  destruct s as [|c s]; [done|]. simpl. rewrite trim_end_cons.
  destruct (is_hspace c) eqn:Hc.
  - intros ->. simpl. by apply hspace_not_lf.
  - simpl. done.
Qed.

Lemma trim_end_ok s : ok_line_end (trim_end s) = true.
Proof.
  induction s as [s IH] using by_length.
  destruct s as [|c s]; [done|]. rewrite trim_end_cons.
  destruct (is_hspace c && hrun_lf s) eqn:Hc; simpl.
  - rewrite hspace_LF. simpl. apply IH.
    pose proof (skip_length is_hspace s).
    destruct (skip is_hspace s); simpl in *; lia.
  - rewrite IH by (simpl; lia). rewrite andb_true_r.
    destruct (is_hspace c); [|done]. simpl in *.
    by rewrite trim_end_no_lf.
Qed.

Lemma collapse_ok s : ok_blank_lines (collapse s) = true.
Proof.
  induction s as [s IH] using by_length.
  destruct s as [|c s]; [done|]. rewrite collapse_cons.
  destruct ((LF =? c) && lf_in_run s) eqn:Hc.
  - assert (starts isspace (collapse (skip isspace s)) = false) as Hst
      by (by rewrite starts_collapse, skip_starts).
    cbn [ok_blank_lines starts tail].
    rewrite LF_eqb_LF, Hst, (lf_in_run_starts _ Hst). simpl.
    rewrite orb_true_r. simpl.
    apply IH. pose proof (skip_length isspace s). simpl. lia.
  - cbn [ok_blank_lines]. rewrite lf_in_run_collapse, Hc. simpl.
    apply IH. simpl. lia.
Qed.

(** *** What the substitutions do to a string *)

Lemma squeeze_skip p q s x : squeeze p q (skip p s) x -> squeeze p q s x.
Proof.
  induction s as [|c s IH]; simpl; [done|].
  destruct (p c) eqn:Hc; [|done]. intros H. by apply squeeze_del, IH.
Qed.

Lemma squeeze_mono (p q p' q' : N -> bool) s s' :
  (forall c, p c = true -> p' c = true) ->
  (forall c, q c = true -> q' c = true) ->
  squeeze p q s s' -> squeeze p' q' s s'.
Proof.
  intros Hp Hq H. induction H; [constructor|constructor; done|..].
  - apply squeeze_del; [by apply Hp|done].
  - apply squeeze_sub; [by apply Hp|by apply Hq|done].
Qed.

Lemma squeeze_drop_hspace s s' :
  squeeze is_hspace no_char s s' -> squeeze is_hspace is_hspace s s'.
Proof. by apply squeeze_mono. Qed.

Lemma squeeze_hspace_space s s' :
  squeeze is_hspace is_hspace s s' -> squeeze isspace isspace s s'.
Proof. apply squeeze_mono; apply hspace_isspace. Qed.

Lemma squash_squeeze s : squeeze is_hspace is_hspace s (squash s).
Proof.
  induction s as [s IH] using by_length.
  destruct s as [|c s]; [constructor|]. rewrite squash_cons.
  destruct (is_hspace c) eqn:Hc.
  - apply squeeze_sub; [done|apply hspace_SP|].
    apply squeeze_skip, IH.
    pose proof (skip_length is_hspace s). simpl. lia.
  - apply squeeze_keep, IH. simpl. lia.
Qed.

Lemma trim_start_squeeze s : squeeze is_hspace no_char s (trim_start s).
Proof.
  induction s as [s IH] using by_length.
  destruct s as [|c s]; [constructor|]. rewrite trim_start_cons.
  destruct ((LF =? c) && starts is_hspace s) eqn:Hc.
  - apply andb_true_iff in Hc as [Hc _]. apply N.eqb_eq in Hc as <-.
    apply squeeze_keep, squeeze_skip, IH.
    pose proof (skip_length is_hspace s). simpl. lia.
  - apply squeeze_keep, IH. simpl. lia.
Qed.

Lemma trim_end_squeeze s : squeeze is_hspace no_char s (trim_end s).
Proof.
  induction s as [s IH] using by_length.
  destruct s as [|c s]; [constructor|]. rewrite trim_end_cons.
  destruct (is_hspace c && hrun_lf s) eqn:Hc.
  - apply andb_true_iff in Hc as [Hc Hrun].
    destruct (hrun_lf_skip _ Hrun) as [t Ht]. rewrite Ht. simpl.
    apply squeeze_del; [done|]. apply squeeze_skip. rewrite Ht.
    apply squeeze_keep, IH.
    pose proof (skip_length is_hspace s) as Hl. rewrite Ht in Hl.
    simpl in *. lia.
  - apply squeeze_keep, IH. simpl. lia.
Qed.

Lemma collapse_squeeze s : squeeze isspace isspace s (collapse s).
Proof.
  induction s as [s IH] using by_length.
  destruct s as [|c s]; [constructor|]. rewrite collapse_cons.
  destruct ((LF =? c) && lf_in_run s) eqn:Hc.
  - apply andb_true_iff in Hc as [Hc Hrun].
    apply N.eqb_eq in Hc as <-.
    destruct (lf_in_run_nonempty _ Hrun) as (c2 & s2 & -> & Hc2).
    apply squeeze_keep. apply squeeze_sub; [done|apply isspace_LF|].
    simpl. rewrite Hc2. apply squeeze_skip, IH.
    pose proof (skip_length isspace s2). simpl. lia.
  - apply squeeze_keep, IH. simpl. lia.
Qed.

(** *** Local conditions survive the later substitutions *)

Lemma squeeze_starts (p q r : N -> bool) s s' :
  (forall c, p c = true -> r c = true) ->
  squeeze p q s s' -> starts r s' = true -> starts r s = true.
Proof. intros Hp H. induction H; simpl; auto. Qed.

Lemma squeeze_cons_inv p q c s x :
  p c = false -> squeeze p q (c :: s) x ->
  exists s', x = c :: s' /\ squeeze p q s s'.
Proof.
  intros Hc H. inversion H; subst; [by eexists|congruence|congruence].
Qed.

Lemma squeeze_lf_in_run s s' :
  squeeze is_hspace is_hspace s s' ->
  lf_in_run s' = true -> lf_in_run s = true.
Proof.
  intros H. induction H as [|c s s' H IH|c s s' Hc H IH|c c' s s' Hc Hc' H IH];
    simpl; [done|..].
  - intros Hr. apply andb_true_iff in Hr as [-> Hr]. simpl.
    destruct (LF =? c); [done|]. simpl in *. by apply IH.
  - intros Hr. rewrite (hspace_isspace _ Hc), (IH Hr). by rewrite orb_true_r.
  - intros Hr. apply andb_true_iff in Hr as [_ Hr].
    rewrite (hspace_not_lf _ Hc') in Hr. simpl in Hr.
    rewrite (hspace_isspace _ Hc), (IH Hr). by rewrite orb_true_r.
Qed.

Lemma squeeze_ok_hspaces s s' :
  squeeze is_hspace no_char s s' ->
  ok_hspaces s = true -> ok_hspaces s' = true.
Proof.
  intros H. induction H as [|c s s' H IH|c s s' Hc H IH|c c' s s' Hc Hc' H IH];
    simpl; [done|..]; intros Hok.
  - apply andb_true_iff in Hok as [Hok Hs].
    apply andb_true_iff in Hok as [Htab Hrun].
    rewrite Htab, (IH Hs), andb_true_r. simpl.
    destruct (is_hspace c); [|done]. simpl in *.
    destruct (starts is_hspace s') eqn:Hst; [|done].
    by rewrite (squeeze_starts _ _ is_hspace _ _ (fun _ H => H) H Hst)
      in Hrun.
  - apply andb_true_iff in Hok as [_ Hs]. by apply IH.
  - done.
Qed.

Lemma squeeze_ok_line_start s s' :
  squeeze is_hspace no_char s s' ->
  ok_line_start s = true -> ok_line_start s' = true.
Proof.
  intros H. induction H as [|c s s' H IH|c s s' Hc H IH|c c' s s' Hc Hc' H IH];
    simpl; [done|..]; intros Hok.
  - apply andb_true_iff in Hok as [Hrun Hs].
    rewrite (IH Hs), andb_true_r.
    destruct (LF =? c); [|done]. simpl in *.
    destruct (starts is_hspace s') eqn:Hst; [|done].
    by rewrite (squeeze_starts _ _ is_hspace _ _ (fun _ H => H) H Hst)
      in Hrun.
  - apply andb_true_iff in Hok as [_ Hs]. by apply IH.
  - done.
Qed.

Lemma squeeze_ok_blank_lines s s' :
  squeeze is_hspace is_hspace s s' ->
  ok_blank_lines s = true -> ok_blank_lines s' = true.
Proof.
  intros H. induction H as [|c s s' H IH|c s s' Hc H IH|c c' s s' Hc Hc' H IH];
    simpl; [done|..]; intros Hok;
    apply andb_true_iff in Hok as [Hhead Hs].
  - rewrite (IH Hs), andb_true_r.
    destruct ((LF =? c) && lf_in_run s') eqn:Hm; [|done]. simpl.
    apply andb_true_iff in Hm as [Hc Hrun].
    rewrite Hc, (squeeze_lf_in_run _ _ H Hrun) in Hhead. simpl in Hhead.
    apply andb_true_iff in Hhead as [Hlf Hu].
    destruct s as [|c2 u]; [done|]. simpl in Hlf, Hu.
    destruct (squeeze_cons_inv _ _ _ _ _ (lf_not_hspace _ Hlf) H)
      as (u' & -> & Hu').
    simpl. rewrite Hlf. simpl.
    destruct (starts isspace u') eqn:Hst; [|done].
    rewrite (squeeze_starts _ _ isspace _ _ hspace_isspace Hu' Hst) in Hu.
    done.
  - by apply IH.
  - rewrite (IH Hs), andb_true_r.
    by rewrite (hspace_not_lf _ Hc').
Qed.

(** *** The ends of the string *)

Lemma squeeze_to_nil p q s :
  squeeze p q s [] -> forallb p s = true.
Proof.
  intros H. remember [] as x eqn:Hx.
  induction H; [done|done| |done].
  simpl. rewrite IHsqueeze by done. by rewrite H.
Qed.

Lemma lastws_all s :
  forallb isspace s = true -> s <> [] -> lastws s = true.
Proof.
  induction s as [|c s IH]; [done|]. simpl.
  intros H _. apply andb_true_iff in H as [Hc Hs].
  destruct s as [|c2 s]; [done|]. by apply IH.
Qed.

Lemma lastws_cons c s : s <> [] -> lastws (c :: s) = lastws s.
Proof. by destruct s. Qed.

Lemma lastws_nonempty s : lastws s = true -> s <> [].
Proof. by destruct s. Qed.

Lemma squeeze_lastws s s' :
  squeeze isspace isspace s s' -> lastws s' = true -> lastws s = true.
Proof.
  intros H. induction H as [|c s s' H IH|c s s' Hc H IH|c c' s s' Hc Hc' H IH];
    [done|..]; intros Hl.
  - destruct s' as [|c2 s'].
    + simpl in Hl. apply squeeze_to_nil in H.
      destruct s as [|c3 s]; [done|].
      rewrite lastws_cons by done. by apply lastws_all.
    + rewrite lastws_cons in Hl by done. specialize (IH Hl).
      rewrite lastws_cons; [done|]. by apply lastws_nonempty.
  - specialize (IH Hl). rewrite lastws_cons; [done|].
    by apply lastws_nonempty.
  - destruct s' as [|c2 s'].
    + apply squeeze_to_nil in H.
      destruct s as [|c3 s]; [done|].
      rewrite lastws_cons by done. by apply lastws_all.
    + rewrite lastws_cons in Hl by done. specialize (IH Hl).
      rewrite lastws_cons; [done|]. by apply lastws_nonempty.
Qed.

Lemma squeeze_trimmed s s' :
  squeeze isspace isspace s s' -> trimmed s -> trimmed s'.
Proof.
  intros H [Hst Hend]. split.
  - destruct (starts isspace s') eqn:Hs'; [|done].
    by rewrite (squeeze_starts _ _ isspace _ _ (fun _ H => H) H Hs') in Hst.
  - destruct (lastws s') eqn:Hl'; [|done].
    by rewrite (squeeze_lastws _ _ H Hl') in Hend.
Qed.

Lemma lstrip_skip s : lstrip s = skip isspace s.
Proof.
  induction s as [|c s IH]; simpl; [done|].
  by destruct (isspace c).
Qed.

Lemma lastws_snoc s c : lastws (s ++ [c]) = isspace c.
Proof.
  induction s as [|c2 s IH]; [done|].
  change ((c2 :: s) ++ [c]) with (c2 :: (s ++ [c])).
  rewrite lastws_cons; [done|]. by destruct s.
Qed.

Lemma lastws_rev s : lastws (rev s) = starts isspace s.
Proof.
  destruct s as [|c s]; [done|]. simpl. apply lastws_snoc.
Qed.

Lemma skip_snoc s c :
  isspace c = false -> skip isspace (s ++ [c]) = skip isspace s ++ [c].
Proof.
  intros Hc. induction s as [|c2 s IH]; simpl; [by rewrite Hc|].
  by destruct (isspace c2).
Qed.

Lemma strip_trimmed s : trimmed (strip s).
Proof.
  unfold strip, rstrip. rewrite !lstrip_skip. split.
  - pose proof (skip_starts isspace s) as Hs.
    destruct (skip isspace s) as [|c x]; [done|]. simpl in Hs.
    simpl. rewrite skip_snoc by done.
    rewrite rev_app_distr. simpl. done.
  - rewrite lastws_rev. apply skip_starts.
Qed.

Lemma strip_fixed s : trimmed s -> strip s = s.
Proof.
  intros [Hst Hend]. unfold strip, rstrip. rewrite !lstrip_skip.
  rewrite (skip_id _ _ Hst).
  rewrite <- (rev_involutive s) in Hend. rewrite lastws_rev in Hend.
  rewrite (skip_id _ _ Hend). apply rev_involutive.
Qed.

(** *** The pass as a whole *)

Local Transparent isspace is_hspace LF SP TAB.

Lemma clean_nonempty s :
  s <> [] ->
  _clean_extra_whitespace s
  = strip (trim_end (trim_start (squash (collapse (strip s))))).
Proof. by destruct s. Qed.

Lemma clean_fixed s :
  trimmed s ->
  ok_blank_lines s = true -> ok_hspaces s = true ->
  ok_line_start s = true -> ok_line_end s = true ->
  _clean_extra_whitespace s = s.
Proof.
  intros Ht H3 H4 H5 H6. destruct s as [|c s]; [done|].
  rewrite clean_nonempty by done.
  by rewrite (strip_fixed _ Ht), (collapse_fixed _ H3), (squash_fixed _ H4),
    (trim_start_fixed _ H5), (trim_end_fixed _ H6), (strip_fixed _ Ht).
Qed.

(** C5. The clean-up pass is idempotent: cleaning a cleaned string
    gives the same string, for every string. *)
Theorem clean_idempotent (s : str) :
  _clean_extra_whitespace (_clean_extra_whitespace s)
  = _clean_extra_whitespace s.
Proof.
  destruct s as [|c0 s0]; [done|].
  rewrite (clean_nonempty (c0 :: s0)) by done.
  set (u0 := strip (c0 :: s0)).
  set (u1 := collapse u0). set (u2 := squash u1).
  set (u3 := trim_start u2). set (u4 := trim_end u3).
  assert (trimmed u4) as Ht.
  { apply (squeeze_trimmed u3);
      [apply squeeze_hspace_space, squeeze_drop_hspace, trim_end_squeeze|].
    apply (squeeze_trimmed u2);
      [apply squeeze_hspace_space, squeeze_drop_hspace,
         trim_start_squeeze|].
    apply (squeeze_trimmed u1);
      [apply squeeze_hspace_space, squash_squeeze|].
    apply (squeeze_trimmed u0); [apply collapse_squeeze|].
    apply strip_trimmed. }
  rewrite (strip_fixed _ Ht).
  apply clean_fixed; [done|..].
  - apply (squeeze_ok_blank_lines u3);
      [apply squeeze_drop_hspace, trim_end_squeeze|].
    apply (squeeze_ok_blank_lines u2);
      [apply squeeze_drop_hspace, trim_start_squeeze|].
    apply (squeeze_ok_blank_lines u1); [apply squash_squeeze|].
    apply collapse_ok.
  - apply (squeeze_ok_hspaces u3); [apply trim_end_squeeze|].
    apply (squeeze_ok_hspaces u2); [apply trim_start_squeeze|].
    apply squash_ok.
  - apply (squeeze_ok_line_start u3); [apply trim_end_squeeze|].
    apply trim_start_ok.
  - apply trim_end_ok.
Qed.

End CleanUp.

(** ** Saving and loading again *)

Section Escaping.

Lemma replace_char_app old new a b :
  replace_char old new (a ++ b)
  = replace_char old new a ++ replace_char old new b.
Proof.
  induction a as [|c a IH]; simpl; [done|].
  by rewrite IH, app_assoc.
Qed.

Lemma escape_app a b :
  _escape_toml_string (a ++ b)
  = _escape_toml_string a ++ _escape_toml_string b.
Proof. unfold _escape_toml_string. by rewrite !replace_char_app. Qed.

Lemma escape_cons c v :
  _escape_toml_string (c :: v)
  = _escape_toml_string [c] ++ _escape_toml_string v.
Proof. apply (escape_app [c] v). Qed.

(** The five chained [replace] calls, one character at a time. *)
Lemma escape_one c :
  _escape_toml_string [c]
  = if c =? BACKSLASH then [BACKSLASH; BACKSLASH]
    else if c =? QUOTE then [BACKSLASH; QUOTE]
    else if c =? LF then [BACKSLASH; 110]
    else if c =? CR then [BACKSLASH; 114]
    else if c =? TAB then [BACKSLASH; 116]
    else [c].
Proof.
  unfold _escape_toml_string. simpl.
  destruct (N.eqb_spec c BACKSLASH) as [->|Hb]; [reflexivity|].
  simpl. destruct (N.eqb_spec c QUOTE) as [->|Hq]; [reflexivity|].
  simpl. destruct (N.eqb_spec c LF) as [->|Hl]; [reflexivity|].
  simpl. destruct (N.eqb_spec c CR) as [->|Hc]; [reflexivity|].
  simpl. destruct (N.eqb_spec c TAB) as [->|Ht]; [reflexivity|].
  reflexivity.
Qed.

(** Reading an escaped string up to the closing quote gives the string
    back. *)
Lemma basic_string_escape v rest :
  basic_string (_escape_toml_string v ++ QUOTE :: rest) = Some (v, rest).
Proof.
  induction v as [|c v IH]; [reflexivity|].
  rewrite escape_cons, escape_one, <- app_assoc.
  destruct (N.eqb_spec c BACKSLASH) as [->|Hb].
  { change (basic_string ([BACKSLASH; BACKSLASH] ++ ?x))
      with (push BACKSLASH (basic_string x)). by rewrite IH. }
  destruct (N.eqb_spec c QUOTE) as [->|Hq].
  { change (basic_string ([BACKSLASH; QUOTE] ++ ?x))
      with (push QUOTE (basic_string x)). by rewrite IH. }
  destruct (N.eqb_spec c LF) as [->|Hl].
  { change (basic_string ([BACKSLASH; 110] ++ ?x))
      with (push LF (basic_string x)). by rewrite IH. }
  destruct (N.eqb_spec c CR) as [->|Hc].
  { change (basic_string ([BACKSLASH; 114] ++ ?x))
      with (push CR (basic_string x)). by rewrite IH. }
  destruct (N.eqb_spec c TAB) as [->|Ht].
  { change (basic_string ([BACKSLASH; 116] ++ ?x))
      with (push TAB (basic_string x)). by rewrite IH. }
  simpl. apply N.eqb_neq in Hb, Hq. by rewrite Hq, Hb, IH.
Qed.

(** An escaped string holds no line feed. *)
Lemma escape_one_line v : one_line (_escape_toml_string v) = true.
Proof.
  induction v as [|c v IH]; [reflexivity|].
  rewrite escape_cons. unfold one_line in *. rewrite forallb_app, IH.
  rewrite andb_true_r, escape_one.
  destruct (N.eqb_spec c BACKSLASH); [reflexivity|].
  destruct (N.eqb_spec c QUOTE); [reflexivity|].
  destruct (N.eqb_spec c LF) as [|Hl]; [reflexivity|].
  destruct (N.eqb_spec c CR); [reflexivity|].
  destruct (N.eqb_spec c TAB); [reflexivity|].
  assert ((LF =? c) = false) as Hn by (apply N.eqb_neq; congruence).
  cbn [forallb]. by rewrite Hn.
Qed.

End Escaping.

Section Lines.

Lemma split_lines_line l rest :
  one_line l = true ->
  split_lines (l ++ LF :: rest) = l :: split_lines rest.
Proof.
  induction l as [|c l IH]; intros Hl.
  - reflexivity.
  - unfold one_line in Hl. cbn [forallb] in Hl.
    apply andb_true_iff in Hl as [Hc Hl]. apply negb_true_iff in Hc.
    change ((c :: l) ++ LF :: rest) with (c :: (l ++ LF :: rest)).
    cbn [split_lines]. by rewrite Hc, (IH Hl).
Qed.

Lemma read_text_nil st : read_text [] st = Some st.
Proof. reflexivity. Qed.

Lemma read_text_line l rest st :
  one_line l = true ->
  read_text (l ++ LF :: rest) st
  = match read_line l st with
    | Some st' => read_text rest st'
    | None => None
    end.
Proof.
  intros Hl. unfold read_text. by rewrite split_lines_line.
Qed.

Lemma read_text_blank rest st : read_text ([LF] ++ rest) st = read_text rest st.
Proof. apply (read_text_line [] rest st). reflexivity. Qed.

(** A line of fixed text. *)
Lemma read_text_fixed (s : string) tok rest st :
  one_line (lit s) = true ->
  parse_line (lit s) = Some tok ->
  read_text (line s ++ rest) st
  = match apply_line tok st with
    | Some st' => read_text rest st'
    | None => None
    end.
Proof.
  intros Hl Hp. unfold line. rewrite <- app_assoc.
  change ([LF] ++ rest) with (LF :: rest).
  rewrite read_text_line by done. unfold read_line. by rewrite Hp.
Qed.

(** *** Keys *)

Lemma bare_facts c :
  bare c = true ->
  isspace c = false /\ (c =? HASH) = false /\ (c =? LBRACKET) = false
  /\ (c =? EQUALS) = false /\ (LF =? c) = false.
Proof.
  unfold bare, isspace, HASH, LBRACKET, EQUALS, LF. intros H.
  repeat rewrite ?orb_true_iff, ?andb_true_iff, ?N.leb_le, ?N.eqb_eq in H.
  repeat split; apply not_true_is_false; intros Hn;
    repeat rewrite ?orb_true_iff, ?andb_true_iff, ?N.leb_le, ?N.eqb_eq
      in Hn; lia.
Qed.

Lemma lastws_app a b : b <> [] -> lastws (a ++ b) = lastws b.
Proof.
  intros Hb. induction a as [|c a IH]; [done|].
  change ((c :: a) ++ b) with (c :: (a ++ b)).
  rewrite lastws_cons; [done|]. by destruct a, b.
Qed.

Lemma lastws_none s :
  forallb (fun c => negb (isspace c)) s = true -> lastws s = false.
Proof.
  induction s as [|c s IH]; [done|]. cbn [forallb].
  intros H. apply andb_true_iff in H as [Hc Hs].
  apply negb_true_iff in Hc.
  destruct s as [|c2 s]; [done|]. rewrite lastws_cons by done. by apply IH.
Qed.

Lemma key_trimmed key : key_ok key = true -> trimmed key.
Proof.
  unfold key_ok. intros H. apply andb_true_iff in H as [Hne Hb].
  split.
  - destruct key as [|c key]; [done|]. cbn [forallb] in Hb.
    apply andb_true_iff in Hb as [Hc _]. simpl.
    by destruct (bare_facts _ Hc).
  - apply lastws_none. clear Hne.
    induction key as [|c key IH]; [done|]. cbn [forallb] in *.
    apply andb_true_iff in Hb as [Hc Hb].
    destruct (bare_facts _ Hc) as [-> _]. simpl. by apply IH.
Qed.

Lemma key_one_line key : key_ok key = true -> one_line key = true.
Proof.
  unfold key_ok, one_line. intros H. apply andb_true_iff in H as [_ Hb].
  induction key as [|c key IH]; [done|]. cbn [forallb] in *.
  apply andb_true_iff in Hb as [Hc Hb].
  destruct (bare_facts _ Hc) as (_ & _ & _ & _ & ->). simpl. by apply IH.
Qed.

Lemma split_eq_key key v :
  forallb bare key = true ->
  split_eq (key ++ SP :: EQUALS :: SP :: v) = Some (key ++ [SP], SP :: v).
Proof.
  intros Hb. induction key as [|c key IH]; [reflexivity|].
  cbn [forallb] in Hb. apply andb_true_iff in Hb as [Hc Hb].
  destruct (bare_facts _ Hc) as (_ & _ & _ & He & _).
  change ((c :: key) ++ SP :: EQUALS :: SP :: v)
    with (c :: (key ++ SP :: EQUALS :: SP :: v)).
  cbn [split_eq]. by rewrite He, (IH Hb).
Qed.

Lemma strip_after_space v : trimmed v -> strip (SP :: v) = v.
Proof. intros Hv. change (strip (SP :: v)) with (strip v). by apply strip_fixed. Qed.

Lemma strip_key_space key : key_ok key = true -> strip (key ++ [SP]) = key.
Proof.
  intros Hk. destruct (key_trimmed _ Hk) as [Hst Hend].
  unfold strip, rstrip. rewrite !lstrip_skip.
  rewrite (skip_id isspace (key ++ [SP])).
  2: { destruct key as [|c key]; [done|]. exact Hst. }
  rewrite rev_app_distr. change (rev [SP] ++ rev key) with (SP :: rev key).
  change (skip isspace (SP :: rev key)) with (skip isspace (rev key)).
  rewrite <- (rev_involutive key) in Hend. rewrite lastws_rev in Hend.
  rewrite (skip_id _ _ Hend). apply rev_involutive.
Qed.

(** A [key = value] line. *)
Lemma parse_pair key v :
  key_ok key = true -> v <> [] -> trimmed v ->
  parse_line (key ++ lit " = " ++ v)
  = match parse_value v with
    | Some val => Some (LPair key val)
    | None => None
    end.
Proof.
  intros Hk Hne Hv. change (lit " = ") with [SP; EQUALS; SP].
  change ([SP; EQUALS; SP] ++ v) with (SP :: EQUALS :: SP :: v).
  unfold parse_line. rewrite strip_fixed.
  2: { destruct (key_trimmed _ Hk) as [Hst _]. destruct Hv as [_ Hend].
       split.
       - destruct key as [|c key]; [done|]. exact Hst.
       - rewrite lastws_app by done.
         change (SP :: EQUALS :: SP :: v) with ([SP; EQUALS; SP] ++ v).
         by rewrite lastws_app. }
  pose proof Hk as Hk'. unfold key_ok in Hk'.
  apply andb_true_iff in Hk' as [Hnil Hb].
  destruct key as [|c key]; [done|].
  change ((c :: key) ++ SP :: EQUALS :: SP :: v)
    with (c :: (key ++ SP :: EQUALS :: SP :: v)).
  pose proof Hb as Hb'. cbn [forallb] in Hb'.
  apply andb_true_iff in Hb' as [Hc _].
  destruct (bare_facts _ Hc) as (_ & -> & -> & _ & _).
  change (c :: (key ++ SP :: EQUALS :: SP :: v))
    with ((c :: key) ++ SP :: EQUALS :: SP :: v).
  rewrite (split_eq_key _ _ Hb), (strip_after_space _ Hv).
  by rewrite (strip_key_space _ Hk).
Qed.

(** *** Values *)

Lemma parse_value_string v :
  parse_value (QUOTE :: _escape_toml_string v ++ [QUOTE]) = Some (TStr v).
Proof.
  unfold parse_value. rewrite N.eqb_refl.
  by rewrite (basic_string_escape v []).
Qed.

Lemma parse_value_bool b : parse_value (bool_lower b) = Some (TBool b).
Proof. destruct b; vm_compute; reflexivity. Qed.

Lemma digitish_facts c :
  digitish c = true ->
  isspace c = false /\ (c =? QUOTE) = false /\ (c <? 256) = true
  /\ (LF =? c) = false /\ (c =? 116) = false /\ (c =? 102) = false.
Proof.
  unfold digitish, isspace, QUOTE, LF. intros H.
  repeat rewrite ?orb_true_iff, ?andb_true_iff, ?N.leb_le, ?N.eqb_eq in H.
  split; [|split; [|split; [|split; [|split]]]];
    try (apply N.ltb_lt; lia);
    apply not_true_is_false; intros Hn;
    repeat rewrite ?orb_true_iff, ?andb_true_iff, ?N.leb_le, ?N.eqb_eq
      in Hn; lia.
Qed.

Lemma uint_digits d :
  forallb digitish
    (map N_of_ascii (list_ascii_of_string (NilEmpty.string_of_uint d)))
  = true.
Proof. induction d; simpl; auto. Qed.

Lemma int_str_digits z : forallb digitish (int_str z) = true.
Proof.
  unfold int_str. destruct (Z.to_int z) as [d|d]; simpl.
  - apply uint_digits.
  - apply uint_digits.
Qed.

Lemma int_str_nonempty z : int_str z <> [].
Proof.
  unfold int_str. destruct z as [|p|p]; simpl; [done| |done].
  pose proof (DecimalPos.Unsigned.to_uint_nonnil p).
  by destruct (Pos.to_uint p).
Qed.

Lemma forallb_impl {A} (f g : A -> bool) l :
  (forall x, f x = true -> g x = true) ->
  forallb f l = true -> forallb g l = true.
Proof.
  intros Hfg. induction l as [|x l IH]; [done|]. cbn [forallb].
  intros H. apply andb_true_iff in H as [Hx Hl].
  by rewrite (Hfg _ Hx), (IH Hl).
Qed.

Lemma read_int_str z : read_int (int_str z) = Some z.
Proof.
  unfold read_int.
  rewrite (forallb_impl digitish _ _
             (fun c H => proj1 (proj2 (proj2 (digitish_facts c H))))
             (int_str_digits z)).
  unfold int_str. rewrite map_map.
  rewrite (map_ext _ (fun a => a) ascii_N_embedding), map_id.
  rewrite string_of_list_ascii_of_string, NilEmpty.isi.
  by rewrite DecimalZ.of_to.
Qed.

Lemma int_str_trimmed z : trimmed (int_str z).
Proof.
  pose proof (int_str_digits z) as Hd. split.
  - destruct (int_str z) as [|c s]; [done|]. cbn [forallb] in Hd.
    apply andb_true_iff in Hd as [Hc _]. simpl.
    by destruct (digitish_facts _ Hc).
  - apply lastws_none. revert Hd. apply forallb_impl.
    intros c Hc. by destruct (digitish_facts _ Hc) as [-> _].
Qed.

Lemma int_str_one_line z : one_line (int_str z) = true.
Proof.
  pose proof (int_str_digits z) as Hd. revert Hd. apply forallb_impl.
  intros c Hc. by destruct (digitish_facts _ Hc) as (_ & _ & _ & -> & _).
Qed.

Lemma parse_value_int z : parse_value (int_str z) = Some (TInt z).
Proof.
  unfold parse_value. pose proof (int_str_digits z) as Hd.
  pose proof (int_str_nonempty z) as Hne. pose proof (read_int_str z) as Hr.
  destruct (int_str z) as [|c s] eqn:Hs; [done|].
  cbn [forallb] in Hd. apply andb_true_iff in Hd as [Hc _].
  destruct (digitish_facts _ Hc) as (_ & -> & _ & _ & Ht & Hf).
  assert (str_eqb (c :: s) (lit "true") = false) as ->.
  { apply str_eqb_false. intros Heq. injection Heq as -> _.
    by vm_compute in Ht. }
  assert (str_eqb (c :: s) (lit "false") = false) as ->.
  { apply str_eqb_false. intros Heq. injection Heq as -> _.
    by vm_compute in Hf. }
  by rewrite Hr.
Qed.

End Lines.

Section Reading.

Lemma kv_str_raw key e : kv_str key e = kv_raw key (QUOTE :: e ++ [QUOTE]).
Proof.
  unfold kv_str, kv_raw. do 2 f_equal.
  change ([QUOTE] ++ e ++ [QUOTE; LF]) with (QUOTE :: (e ++ [QUOTE; LF])).
  change ((QUOTE :: e ++ [QUOTE]) ++ [LF])
    with (QUOTE :: ((e ++ [QUOTE]) ++ [LF])).
  by rewrite <- app_assoc.
Qed.

(** A [key = value] line of the generator. *)
Lemma read_text_kv_raw (key : string) v val rest st :
  key_ok (lit key) = true -> v <> [] -> trimmed v -> one_line v = true ->
  parse_value v = Some val ->
  read_text (kv_raw key v ++ rest) st
  = match set_key (lit key) val st with
    | Some st' => read_text rest st'
    | None => None
    end.
Proof.
  intros Hk Hne Hv Hl Hp. unfold kv_raw.
  replace ((lit key ++ lit " = " ++ v ++ [LF]) ++ rest)
    with ((lit key ++ lit " = " ++ v) ++ LF :: rest).
  2: { rewrite <- !app_assoc. do 3 f_equal. }
  rewrite read_text_line.
  2: { pose proof (key_one_line _ Hk) as Hkl.
       unfold one_line in *. by rewrite !forallb_app, Hl, Hkl. }
  unfold read_line. by rewrite parse_pair, Hp.
Qed.

Lemma read_text_kv_str (key : string) v rest st :
  key_ok (lit key) = true ->
  read_text (kv_str key (_escape_toml_string v) ++ rest) st
  = match set_key (lit key) (TStr v) st with
    | Some st' => read_text rest st'
    | None => None
    end.
Proof.
  intros Hk. rewrite kv_str_raw.
  apply read_text_kv_raw; [done|done| | |].
  - split; [reflexivity|].
    change (QUOTE :: _escape_toml_string v ++ [QUOTE])
      with ((QUOTE :: _escape_toml_string v) ++ [QUOTE]).
    by rewrite lastws_snoc.
  - unfold one_line. cbn [forallb]. rewrite forallb_app.
    pose proof (escape_one_line v) as He. unfold one_line in He.
    by rewrite He.
  - apply parse_value_string.
Qed.

Lemma read_text_kv_bool (key : string) b rest st :
  key_ok (lit key) = true ->
  read_text (kv_raw key (bool_lower b) ++ rest) st
  = match set_key (lit key) (TBool b) st with
    | Some st' => read_text rest st'
    | None => None
    end.
Proof.
  intros Hk. apply read_text_kv_raw; [done|..].
  - by destruct b.
  - by destruct b.
  - by destruct b.
  - apply parse_value_bool.
Qed.

Lemma read_text_kv_int (key : string) z rest st :
  key_ok (lit key) = true ->
  read_text (kv_raw key (int_str z) ++ rest) st
  = match set_key (lit key) (TInt z) st with
    | Some st' => read_text rest st'
    | None => None
    end.
Proof.
  intros Hk. apply read_text_kv_raw; [done|..].
  - apply int_str_nonempty.
  - apply int_str_trimmed.
  - apply int_str_one_line.
  - apply parse_value_int.
Qed.

(** Steps on fixed lines: the line is parsed by computation. *)
Ltac fixed_line tok :=
  rewrite (read_text_fixed _ tok) by (vm_compute; reflexivity);
  cbn [apply_line].

Ltac blank_line := rewrite read_text_blank.

(** *** The [[plugin]] table *)

Lemma read_plugin p rest sec r a :
  read_text (gen_plugin p ++ rest) (ReaderState sec (Config None r a))
  = read_text rest
      (ReaderState (match p with Some _ => SecPlugin | None => sec end)
                   (Config p r a)).
Proof.
  destruct p as [[en ver]|]; [|reflexivity].
  unfold gen_plugin. cbn [p_enabled p_config_version].
  destruct en as [b|], ver as [v|];
    rewrite <- ?app_assoc, ?app_nil_l;
    fixed_line LBlank; fixed_line (LTable (lit "plugin"));
    change (open_table (lit "plugin") (ReaderState sec (Config None r a)))
      with (Some (ReaderState SecPlugin
                    (Config (Some (PluginSection None None)) r a)));
    cbv beta iota; blank_line.
  - fixed_line LBlank. rewrite read_text_kv_bool by reflexivity.
    change (set_key (lit "enabled") (TBool b) _)
      with (Some (ReaderState SecPlugin
                    (Config (Some (PluginSection (Some b) None)) r a))).
    cbv beta iota. blank_line. fixed_line LBlank.
    rewrite read_text_kv_str by reflexivity.
    change (set_key (lit "config_version") (TStr v) _)
      with (Some (ReaderState SecPlugin
                    (Config (Some (PluginSection (Some b) (Some v))) r a))).
    cbv beta iota. blank_line. reflexivity.
  - fixed_line LBlank. rewrite read_text_kv_bool by reflexivity.
    change (set_key (lit "enabled") (TBool b) _)
      with (Some (ReaderState SecPlugin
                    (Config (Some (PluginSection (Some b) None)) r a))).
    cbv beta iota. blank_line. reflexivity.
  - fixed_line LBlank. rewrite read_text_kv_str by reflexivity.
    change (set_key (lit "config_version") (TStr v) _)
      with (Some (ReaderState SecPlugin
                    (Config (Some (PluginSection None (Some v))) r a))).
    cbv beta iota. blank_line. reflexivity.
  - reflexivity.
Qed.

(** *** The [[advanced]] table *)

Lemma read_advanced a rest sec p r :
  read_text (gen_advanced a ++ rest) (ReaderState sec (Config p r None))
  = read_text rest
      (ReaderState (match a with Some _ => SecAdvanced | None => sec end)
                   (Config p r a)).
Proof.
  destruct a as [[mcl lg]|]; [|reflexivity].
  unfold gen_advanced. cbn [max_content_length log_changes].
  destruct mcl as [n|], lg as [b|];
    rewrite <- ?app_assoc, ?app_nil_l;
    fixed_line LBlank; fixed_line (LTable (lit "advanced"));
    change (open_table (lit "advanced")
              (ReaderState sec (Config p r None)))
      with (Some (ReaderState SecAdvanced
                    (Config p r (Some (AdvancedSection None None)))));
    cbv beta iota; blank_line.
  - fixed_line LBlank. rewrite read_text_kv_int by reflexivity.
    change (set_key (lit "max_content_length") (TInt n) _)
      with (Some (ReaderState SecAdvanced
                    (Config p r (Some (AdvancedSection (Some n) None))))).
    cbv beta iota. blank_line. fixed_line LBlank.
    rewrite read_text_kv_bool by reflexivity.
    change (set_key (lit "log_changes") (TBool b) _)
      with (Some (ReaderState SecAdvanced
                    (Config p r (Some (AdvancedSection (Some n)
                                                       (Some b)))))).
    reflexivity.
  - fixed_line LBlank. rewrite read_text_kv_int by reflexivity.
    change (set_key (lit "max_content_length") (TInt n) _)
      with (Some (ReaderState SecAdvanced
                    (Config p r (Some (AdvancedSection (Some n) None))))).
    cbv beta iota. blank_line. reflexivity.
  - fixed_line LBlank. rewrite read_text_kv_bool by reflexivity.
    change (set_key (lit "log_changes") (TBool b) _)
      with (Some (ReaderState SecAdvanced
                    (Config p r (Some (AdvancedSection None (Some b)))))).
    reflexivity.
  - reflexivity.
Qed.

(** *** The tables of a rule list *)

Lemma update_last_snoc f pre x :
  update_last f (pre ++ [x])
  = match f x with Some y => Some (pre ++ [y]) | None => None end.
Proof.
  induction pre as [|c pre IH]; [simpl; by destruct (f x)|].
  change ((c :: pre) ++ [x]) with (c :: (pre ++ [x])).
  cbn [update_last]. rewrite IH.
  destruct (pre ++ [x]) eqn:Hl; [by destruct pre|].
  by destruct (f x).
Qed.

Lemma set_rule_list_twice t l l' rc :
  set_rule_list t l (set_rule_list t l' rc) = set_rule_list t l rc.
Proof. by destruct t. Qed.

Lemma set_key_last t key v p rc a pre x :
  set_key key v
    (ReaderState (SecList t)
       (Config p (Some (set_rule_list t (pre ++ [x]) rc)) a))
  = match set_rule_key key v x with
    | Some y =>
      Some (ReaderState (SecList t)
              (Config p (Some (set_rule_list t (pre ++ [y]) rc)) a))
    | None => None
    end.
Proof.
  unfold set_key. simpl.
  rewrite rule_list_set_same. simpl. rewrite update_last_snoc.
  destruct (set_rule_key key v x); [|done]. simpl.
  by rewrite set_rule_list_twice.
Qed.

Lemma open_rule_table t sec p rc a :
  new_rule t (ReaderState sec (Config p (Some rc) a))
  = ReaderState (SecList t)
      (Config p
         (Some (set_rule_list t (default [] (rule_list t rc) ++ [empty_rule])
                              rc)) a).
Proof. reflexivity. Qed.

(** One key of a rule table: the key goes to the last rule. *)
Ltac rule_key :=
  rewrite set_key_last;
  match goal with
  | |- context [set_rule_key ?k ?v ?x] =>
    let r := eval vm_compute in (set_rule_key k v x) in
    change (set_rule_key k v x) with r
  end;
  cbv beta iota.

Lemma read_replace_fields pat repl en ic ml desc rest sec p rc a :
  read_text
    (line "[[rules.replace_rules]]"
     ++ kv_str "pattern" (_escape_toml_string pat)
     ++ kv_str "replacement" (_escape_toml_string repl)
     ++ kv_raw "enabled" (bool_lower en)
     ++ kv_raw "ignore_case" (bool_lower ic)
     ++ kv_raw "multiline" (bool_lower ml)
     ++ match desc with
        | Some d => kv_str "description" (_escape_toml_string d)
        | None => []
        end
     ++ [LF] ++ rest)
    (ReaderState sec (Config p (Some rc) a))
  = read_text rest
      (ReaderState (SecList KReplace)
         (Config p
            (Some (set_rule_list KReplace
                     (default [] (rule_list KReplace rc)
                      ++ [Rule (Some pat) (Some repl) None None (Some en)
                               (Some ic) (Some ml) desc]) rc)) a)).
Proof.
  fixed_line (LArray (lit "rules.replace_rules")).
  change (open_array (lit "rules.replace_rules") ?st)
    with (Some (new_rule KReplace st)).
  cbv beta iota. rewrite open_rule_table. unfold empty_rule.
  rewrite read_text_kv_str by reflexivity. rule_key.
  rewrite read_text_kv_str by reflexivity. rule_key.
  rewrite read_text_kv_bool by reflexivity. rule_key.
  rewrite read_text_kv_bool by reflexivity. rule_key.
  rewrite read_text_kv_bool by reflexivity. rule_key.
  destruct desc as [d|].
  - rewrite read_text_kv_str by reflexivity. rule_key.
    blank_line. reflexivity.
  - rewrite app_nil_l. blank_line. reflexivity.
Qed.

Lemma read_delete_fields pat en ic ml desc rest sec p rc a :
  read_text
    (line "[[rules.delete_rules]]"
     ++ kv_str "pattern" (_escape_toml_string pat)
     ++ kv_raw "enabled" (bool_lower en)
     ++ kv_raw "ignore_case" (bool_lower ic)
     ++ kv_raw "multiline" (bool_lower ml)
     ++ match desc with
        | Some d => kv_str "description" (_escape_toml_string d)
        | None => []
        end
     ++ [LF] ++ rest)
    (ReaderState sec (Config p (Some rc) a))
  = read_text rest
      (ReaderState (SecList KDelete)
         (Config p
            (Some (set_rule_list KDelete
                     (default [] (rule_list KDelete rc)
                      ++ [Rule (Some pat) None None None (Some en)
                               (Some ic) (Some ml) desc]) rc)) a)).
Proof.
  fixed_line (LArray (lit "rules.delete_rules")).
  change (open_array (lit "rules.delete_rules") ?st)
    with (Some (new_rule KDelete st)).
  cbv beta iota. rewrite open_rule_table. unfold empty_rule.
  rewrite read_text_kv_str by reflexivity. rule_key.
  rewrite read_text_kv_bool by reflexivity. rule_key.
  rewrite read_text_kv_bool by reflexivity. rule_key.
  rewrite read_text_kv_bool by reflexivity. rule_key.
  destruct desc as [d|].
  - rewrite read_text_kv_str by reflexivity. rule_key.
    blank_line. reflexivity.
  - rewrite app_nil_l. blank_line. reflexivity.
Qed.

Lemma read_append_fields content pos en desc rest sec p rc a :
  read_text
    (line "[[rules.append_rules]]"
     ++ kv_str "content" (_escape_toml_string content)
     ++ kv_str "position" (_escape_toml_string pos)
     ++ kv_raw "enabled" (bool_lower en)
     ++ match desc with
        | Some d => kv_str "description" (_escape_toml_string d)
        | None => []
        end
     ++ [LF] ++ rest)
    (ReaderState sec (Config p (Some rc) a))
  = read_text rest
      (ReaderState (SecList KAppend)
         (Config p
            (Some (set_rule_list KAppend
                     (default [] (rule_list KAppend rc)
                      ++ [Rule None None (Some content) (Some pos) (Some en)
                               None None desc]) rc)) a)).
Proof.
  fixed_line (LArray (lit "rules.append_rules")).
  change (open_array (lit "rules.append_rules") ?st)
    with (Some (new_rule KAppend st)).
  cbv beta iota. rewrite open_rule_table. unfold empty_rule.
  rewrite read_text_kv_str by reflexivity. rule_key.
  rewrite read_text_kv_str by reflexivity. rule_key.
  rewrite read_text_kv_bool by reflexivity. rule_key.
  destruct desc as [d|].
  - rewrite read_text_kv_str by reflexivity. rule_key.
    blank_line. reflexivity.
  - rewrite app_nil_l. blank_line. reflexivity.
Qed.

Lemma read_replace_rule r rest sec p rc a :
  read_text (gen_replace_rule r ++ rest)
            (ReaderState sec (Config p (Some rc) a))
  = read_text rest
      (ReaderState (SecList KReplace)
         (Config p
            (Some (set_rule_list KReplace
                     (default [] (rule_list KReplace rc)
                      ++ [saved_replace_rule r]) rc)) a)).
Proof.
  unfold gen_replace_rule, gen_description. rewrite <- !app_assoc.
  apply read_replace_fields.
Qed.

Lemma read_delete_rule r rest sec p rc a :
  read_text (gen_delete_rule r ++ rest)
            (ReaderState sec (Config p (Some rc) a))
  = read_text rest
      (ReaderState (SecList KDelete)
         (Config p
            (Some (set_rule_list KDelete
                     (default [] (rule_list KDelete rc)
                      ++ [saved_delete_rule r]) rc)) a)).
Proof.
  unfold gen_delete_rule, gen_description. rewrite <- !app_assoc.
  apply read_delete_fields.
Qed.

Lemma read_append_rule r rest sec p rc a :
  read_text (gen_append_rule r ++ rest)
            (ReaderState sec (Config p (Some rc) a))
  = read_text rest
      (ReaderState (SecList KAppend)
         (Config p
            (Some (set_rule_list KAppend
                     (default [] (rule_list KAppend rc)
                      ++ [saved_append_rule r]) rc)) a)).
Proof.
  unfold gen_append_rule, gen_description. rewrite <- !app_assoc.
  apply read_append_fields.
Qed.

(** A whole list of tables: the rules arrive in list order behind the
    ones already read. *)
Lemma read_tables t (saved : rule -> rule) (text : rule -> str) :
  (forall r rest sec p rc a,
      read_text (text r ++ rest) (ReaderState sec (Config p (Some rc) a))
      = read_text rest
          (ReaderState (SecList t)
             (Config p
                (Some (set_rule_list t
                         (default [] (rule_list t rc) ++ [saved r]) rc))
                a))) ->
  forall rs rest sec p rc a,
    read_text (concat (map text rs) ++ rest)
              (ReaderState sec (Config p (Some rc) a))
    = read_text rest
        (ReaderState (match rs with [] => sec | _ :: _ => SecList t end)
           (Config p
              (Some (match rs with
                     | [] => rc
                     | _ :: _ =>
                       set_rule_list t
                         (default [] (rule_list t rc) ++ map saved rs) rc
                     end)) a)).
Proof.
  intros Hone rs. induction rs as [|r rs IH]; intros rest sec p rc a.
  - reflexivity.
  - cbn [map concat]. rewrite <- app_assoc, Hone, IH.
    rewrite rule_list_set_same. cbn [default].
    destruct rs as [|r2 rs]; [reflexivity|].
    rewrite set_rule_list_twice. unfold id.
    by rewrite <- app_assoc.
Qed.

Lemma read_rule_list t (title : string) (saved : rule -> rule)
      (text : rule -> str) :
  (forall r rest sec p rc a,
      read_text (text r ++ rest) (ReaderState sec (Config p (Some rc) a))
      = read_text rest
          (ReaderState (SecList t)
             (Config p
                (Some (set_rule_list t
                         (default [] (rule_list t rc) ++ [saved r]) rc))
                a))) ->
  one_line (lit title) = true ->
  parse_line (lit title) = Some LBlank ->
  forall l rest sec p rc a,
    read_text (gen_rule_list title text l ++ rest)
              (ReaderState sec (Config p (Some rc) a))
    = read_text rest
        (ReaderState
           (match l with Some (_ :: _) => SecList t | _ => sec end)
           (Config p
              (Some (match l with
                     | Some (r :: rs) =>
                       set_rule_list t
                         (default [] (rule_list t rc)
                          ++ map saved (r :: rs)) rc
                     | _ => rc
                     end)) a)).
Proof.
  intros Hone Hl Hp l rest sec p rc a.
  destruct l as [rs|]; [|reflexivity].
  unfold gen_rule_list. rewrite <- app_assoc.
  rewrite (read_text_fixed _ LBlank) by done. cbn [apply_line].
  rewrite (read_tables t saved text Hone). by destruct rs.
Qed.

(** *** The [[rules]] table and its lists *)

Lemma read_rules r rest sec p a :
  exists sec',
    read_text (gen_rules r ++ rest) (ReaderState sec (Config p None a))
    = read_text rest
        (ReaderState sec' (Config p (rules (saved_config (Config p r a))) a)).
Proof.
  destruct r as [rc|]; [|by exists sec].
  unfold gen_rules. rewrite <- !app_assoc.
  blank_line. fixed_line LBlank. fixed_line (LTable (lit "rules")).
  change (open_table (lit "rules") (ReaderState sec (Config p None a)))
    with (Some (ReaderState SecRules (Config p (Some empty_rules) a))).
  cbv beta iota. blank_line.
  rewrite (read_rule_list KReplace _ saved_replace_rule _ read_replace_rule)
    by (vm_compute; reflexivity).
  rewrite (read_rule_list KDelete _ saved_delete_rule _ read_delete_rule)
    by (vm_compute; reflexivity).
  rewrite (read_rule_list KAppend _ saved_append_rule _ read_append_rule)
    by (vm_compute; reflexivity).
  eexists. f_equal. f_equal. f_equal.
  destruct rc as [[[|r1 l1]|] [[|r2 l2]|] [[|r3 l3]|]]; reflexivity.
Qed.

(** *** The whole file *)

Lemma header_line rest :
  lit "# " ++ plugin_name ++ line " - 自动生成的配置文件" ++ rest
  = line "# regex_filter_plugin - 自动生成的配置文件" ++ rest.
Proof.
  rewrite !app_assoc. apply (f_equal (fun x => x ++ rest)).
  vm_compute. reflexivity.
Qed.

(** Reading what [_generate_toml_content] writes gives the saved form
    of the configuration. *)
Lemma toml_read_generate (c : config) :
  toml_read (_generate_toml_content c) = Some (saved_config c).
Proof.
  unfold toml_read, _generate_toml_content, empty_config.
  destruct c as [p r a]. cbn [plugin rules advanced].
  rewrite header_line.
  replace (gen_advanced a) with (gen_advanced a ++ [])
    by apply app_nil_r.
  fixed_line LBlank. fixed_line LBlank. blank_line.
  rewrite read_plugin.
  destruct (read_rules r (gen_advanced a ++ [])
              (match p with Some _ => SecPlugin | None => SecTop end)
              p None) as [sec' ->].
  rewrite read_advanced, read_text_nil. reflexivity.
Qed.

End Reading.

(** ** C8: the round trip *)

Lemma saved_config_view (c : config) :
  config_view (saved_config c) = config_view c.
Proof.
  destruct c as [p [[rs ds aps]|] a]; [|reflexivity].
  unfold config_view, saved_config, get_replace_rules, get_delete_rules,
    get_append_rules.
  destruct rs as [[|r rs]|], ds as [[|d ds]|], aps as [[|x aps]|];
    simpl; rewrite ?map_map; reflexivity.
Qed.

(** *** What the generator writes is a TOML document *)

Lemma toml_text_app a b : toml_text (a ++ b) = toml_text a && toml_text b.
Proof. apply forallb_app. Qed.

(** The escaped form holds only characters a document may hold exactly
    when the value is plain. *)
Lemma escape_toml_text v : toml_text (_escape_toml_string v) = plain_str v.
Proof.
  induction v as [|c v IH]; [reflexivity|].
  rewrite escape_cons, toml_text_app, IH, escape_one.
  change (plain_str (c :: v)) with (plain_char c && plain_str v).
  f_equal.
  destruct (N.eqb_spec c BACKSLASH) as [->|Hb]; [reflexivity|].
  destruct (N.eqb_spec c QUOTE) as [->|Hq]; [reflexivity|].
  destruct (N.eqb_spec c LF) as [->|Hl]; [reflexivity|].
  destruct (N.eqb_spec c CR) as [->|Hc]; [reflexivity|].
  destruct (N.eqb_spec c TAB) as [->|Ht]; [reflexivity|].
  unfold toml_text, toml_char, plain_char. cbn [forallb].
  apply N.eqb_neq in Hl, Hc, Ht. rewrite Hl, Hc, Ht.
  by rewrite andb_true_r, !orb_false_r.
Qed.

Lemma digitish_text c : digitish c = true -> toml_char c = true.
Proof.
  unfold digitish, toml_char, scalar, control, TAB, LF. intros H.
  repeat rewrite ?orb_true_iff, ?andb_true_iff, ?N.leb_le, ?N.eqb_eq in H.
  apply andb_true_intro. split.
  - apply orb_true_intro. left. apply N.ltb_lt. lia.
  - apply orb_true_intro. left. apply orb_true_intro. left.
    apply negb_true_iff, orb_false_intro;
      [apply N.ltb_ge; lia | apply N.eqb_neq; lia].
Qed.

Lemma int_str_text z : toml_text (int_str z) = true.
Proof.
  exact (forallb_impl digitish _ _ digitish_text (int_str_digits z)).
Qed.

Lemma bool_lower_text b : toml_text (bool_lower b) = true.
Proof. by destruct b. Qed.

Lemma kv_str_text key v :
  toml_text (lit key) = true -> plain_str v = true ->
  toml_text (kv_str key (_escape_toml_string v)) = true.
Proof.
  intros Hk Hv. unfold kv_str.
  by rewrite !toml_text_app, Hk, escape_toml_text, Hv.
Qed.

Lemma kv_raw_text key v :
  toml_text (lit key) = true -> toml_text v = true ->
  toml_text (kv_raw key v) = true.
Proof.
  intros Hk Hv. unfold kv_raw. by rewrite !toml_text_app, Hk, Hv.
Qed.

Lemma gen_description_text r :
  plain_opt (r_description r) = true -> toml_text (gen_description r) = true.
Proof.
  unfold gen_description. destruct (r_description r) as [d|]; [|done].
  intros Hd. by apply kv_str_text.
Qed.

Lemma gen_replace_rule_text r :
  plain_rule KReplace r = true -> toml_text (gen_replace_rule r) = true.
Proof.
  intros H. apply andb_true_iff in H as [H Hd].
  apply andb_true_iff in H as [Hp Hr].
  unfold gen_replace_rule.
  rewrite !toml_text_app, !kv_str_text, !kv_raw_text, gen_description_text;
    try done; apply bool_lower_text.
Qed.

Lemma gen_delete_rule_text r :
  plain_rule KDelete r = true -> toml_text (gen_delete_rule r) = true.
Proof.
  intros H. apply andb_true_iff in H as [Hp Hd].
  unfold gen_delete_rule.
  rewrite !toml_text_app, !kv_str_text, !kv_raw_text, gen_description_text;
    try done; apply bool_lower_text.
Qed.

Lemma gen_append_rule_text r :
  plain_rule KAppend r = true -> toml_text (gen_append_rule r) = true.
Proof.
  intros H. apply andb_true_iff in H as [H Hd].
  apply andb_true_iff in H as [Hc Hp].
  unfold gen_append_rule.
  rewrite !toml_text_app, !kv_str_text, !kv_raw_text, gen_description_text;
    try done; apply bool_lower_text.
Qed.

Lemma gen_rule_list_text title (g : rule -> str) (P : rule -> bool) l :
  toml_text (line title) = true ->
  (forall r, P r = true -> toml_text (g r) = true) ->
  forallb P (default [] l) = true ->
  toml_text (gen_rule_list title g l) = true.
Proof.
  intros Ht Hg. destruct l as [rs|]; [|done]. cbn [default gen_rule_list].
  rewrite toml_text_app, Ht. cbn [andb].
  induction rs as [|r rs IH]; [done|]. cbn [forallb map concat].
  intros H. apply andb_true_iff in H as [H1 H2].
  by rewrite toml_text_app, (Hg r H1), IH.
Qed.

Lemma gen_plugin_text p :
  plain_opt (x ← p; p_config_version x) = true ->
  toml_text (gen_plugin p) = true.
Proof.
  destruct p as [[e v]|]; [|done]. cbn [mbind option_bind p_config_version].
  intros Hv. unfold gen_plugin. cbn [p_enabled p_config_version].
  destruct e as [b|], v as [v|];
    rewrite ?app_nil_r, !toml_text_app, ?kv_raw_text, ?kv_str_text;
    try done; apply bool_lower_text.
Qed.

Lemma gen_advanced_text a : toml_text (gen_advanced a) = true.
Proof.
  destruct a as [[n b]|]; [|done]. unfold gen_advanced.
  cbn [max_content_length log_changes].
  destruct n as [n|], b as [b|];
    rewrite ?app_nil_r, !toml_text_app, ?kv_raw_text;
    try done; first [apply bool_lower_text | apply int_str_text].
Qed.

Lemma gen_toml_text (c : config) :
  plain_config c = true -> toml_text (_generate_toml_content c) = true.
Proof.
  intros H. apply andb_true_iff in H as [H Ha].
  apply andb_true_iff in H as [H Hd].
  apply andb_true_iff in H as [Hv Hr].
  destruct c as [p r a]. unfold _generate_toml_content.
  cbn [plugin rules advanced] in *.
  rewrite !toml_text_app, (gen_plugin_text p Hv), gen_advanced_text.
  assert (toml_text (gen_rules r) = true) as ->; [|done].
  destruct r as [rc|]; [|done]. unfold gen_rules.
  unfold rules_of, get_replace_rules, get_delete_rules, get_append_rules
    in Hr, Hd, Ha.
  cbn [rules mbind option_bind] in Hr, Hd, Ha.
  rewrite !toml_text_app.
  rewrite (gen_rule_list_text "# 替换规则列表" _ _ _ eq_refl gen_replace_rule_text Hr).
  rewrite (gen_rule_list_text "# 删除规则列表" _ _ _ eq_refl gen_delete_rule_text Hd).
  rewrite (gen_rule_list_text "# 添加规则列表" _ _ _ eq_refl gen_append_rule_text Ha).
  done.
Qed.


(** A plain configuration is written as a document that the reference
    reads back in its saved form. *)
Lemma toml_reference_generate (c : config) :
  plain_config c = true ->
  toml_reference (_generate_toml_content c) = Some (saved_config c).
Proof.
  intros Hc. unfold toml_reference.
  rewrite (gen_toml_text c Hc). apply toml_read_generate.
Qed.




(** X24. What the generator writes for a plain configuration is a TOML
    document: it holds only characters a document may hold, and its
    reference reading is the configuration in its saved form, with
    every rule in place and every field of the data model at the value
    it had. *)
Theorem generated_file_is_toml (c : config) :
  plain_config c = true ->
  toml_text (_generate_toml_content c) = true
  /\ toml_reference (_generate_toml_content c) = Some (saved_config c)
  /\ config_view (saved_config c) = config_view c.
Proof.
  intros Hc. split; [by apply gen_toml_text|].
  split; [by apply toml_reference_generate|apply saved_config_view].
Qed.

Lemma generated_file_is_toml_witness :
  toml_reference (_generate_toml_content schema_defaults)
  = Some (saved_config schema_defaults).
Proof.
  refine (proj1 (proj2 (generated_file_is_toml schema_defaults _))).
  vm_compute. reflexivity.
Defined.




(** The clean-up pass on the text of scenario C. *)
Example clean_scenario_C :
  _clean_extra_whitespace
    (lit "  hello   world  " ++ [LF; LF; LF] ++ lit "  foo  ")
  = lit "hello world" ++ [LF; LF] ++ lit "foo".
Proof. vm_compute. reflexivity. Qed.

(* ===================================================================== *)
(** * Further properties of the code *)
(* ===================================================================== *)

(** ** [_escape_toml_string] *)

(** X1. The five chained [replace] calls amount to one pass that rewrites
    each character on its own: the backslashes written for a quote, a
    line feed, a carriage return or a tab are not escaped again. *)
Theorem escape_charwise (v : str) :
  _escape_toml_string v = concat (map escape_of v).
Proof.
  induction v as [|c v IH]; [reflexivity|].
  rewrite escape_cons, escape_one, IH. reflexivity.
Qed.

(** X2. Escaping loses nothing: two strings with the same escaped form are
    the same string. *)
Theorem escape_injective (a b : str) :
  _escape_toml_string a = _escape_toml_string b -> a = b.
Proof.
  intros Heq.
  pose proof (basic_string_escape a []) as Ha.
  pose proof (basic_string_escape b []) as Hb.
  rewrite Heq in Ha. rewrite Ha in Hb. by injection Hb.
Qed.

Lemma escape_injective_witness :
  _escape_toml_string (lit "a\b") = _escape_toml_string (lit "a\b")
  /\ lit "a\b" = lit "a\b".
Proof.
  split; [reflexivity|].
  apply (escape_injective (lit "a\b") (lit "a\b")). reflexivity.
Defined.

(** X3. The escaped form holds no raw line feed, carriage return or
    tab.  It is made of characters a TOML document may hold exactly
    when the value is plain: any other control character, and a lone
    surrogate, is written raw.  For a plain value it never ends the
    string early: every quote in it follows a backslash that escapes
    it, so reading it as a basic string of the TOML grammar stops at
    the closing quote and gives the value back. *)
Theorem escape_is_one_basic_string (v rest : str) :
  forallb (fun c => negb ((c =? LF) || (c =? CR) || (c =? TAB)))
          (_escape_toml_string v) = true
  /\ toml_text (_escape_toml_string v) = plain_str v
  /\ (plain_str v = true ->
      basic_string (_escape_toml_string v ++ QUOTE :: rest) = Some (v, rest)).
Proof.
  split; [|split; [apply escape_toml_text|intros _; apply basic_string_escape]].
  induction v as [|c v IH]; [reflexivity|].
  rewrite escape_cons, forallb_app, IH, andb_true_r, escape_one.
  destruct (N.eqb_spec c BACKSLASH); [reflexivity|].
  destruct (N.eqb_spec c QUOTE); [reflexivity|].
  destruct (N.eqb_spec c LF) as [|Hl]; [reflexivity|].
  destruct (N.eqb_spec c CR) as [|Hc]; [reflexivity|].
  destruct (N.eqb_spec c TAB) as [|Ht]; [reflexivity|].
  cbn [forallb]. apply N.eqb_neq in Hl, Hc, Ht. by rewrite Hl, Hc, Ht.
Qed.

Lemma escape_is_one_basic_string_witness :
  basic_string
    (_escape_toml_string [97; QUOTE; BACKSLASH; LF] ++ QUOTE :: lit " # x")
  = Some ([97; QUOTE; BACKSLASH; LF], lit " # x").
Proof.
  apply (escape_is_one_basic_string [97; QUOTE; BACKSLASH; LF] (lit " # x")).
  reflexivity.
Defined.

(** ** The rule stages *)

Lemma append_stage_app rs1 rs2 x :
  append_stage (rs1 ++ rs2) x = append_stage rs2 (append_stage rs1 x).
Proof.
  revert x. induction rs1 as [|r rs1 IH]; intros x; simpl; [done|].
  destruct (negb (get_enabled r)); [apply IH|].
  destruct (str_eqb _ _); apply IH.
Qed.

(** X4. Rules apply in list order, each on the text the previous ones
    left: running a stage on a list cut in two is running it on the
    first part and then, unless an exception left the loop there, on
    the second. *)
Theorem stages_compose `{E : ReEngine} (rs1 rs2 : list rule) (x : str) :
  replace_stage (rs1 ++ rs2) x = replace_stage rs1 x ≫= replace_stage rs2
  /\ delete_stage (rs1 ++ rs2) x = delete_stage rs1 x ≫= delete_stage rs2
  /\ append_stage (rs1 ++ rs2) x = append_stage rs2 (append_stage rs1 x).
Proof.
  split; [apply replace_stage_app|].
  split; [apply delete_stage_app|apply append_stage_app].
Qed.

(** X5. The delete loop is the replace loop run with the empty string as
    every rule's replacement. *)
Theorem delete_is_replace_by_empty `{E : ReEngine}
        (rs : list rule) (x : str) :
  delete_stage rs x = replace_stage (map as_delete rs) x.
Proof.
  revert x. induction rs as [|r rs IH]; intros x; simpl; [done|].
  change (get_enabled (as_delete r)) with (get_enabled r).
  destruct (negb (get_enabled r)); [apply IH|].
  change (rule_flags (as_delete r)) with (rule_flags r).
  change (get_pattern (as_delete r)) with (get_pattern r).
  change (get_replacement (as_delete r)) with (@nil N).
  destruct (re_sub _ _ _ _); auto.
Qed.

Lemma append_stage_enabled rs x :
  append_stage rs x = append_stage (List.filter get_enabled rs) x.
Proof.
  revert x. induction rs as [|r rs IH]; intros x; simpl; [done|].
  destruct (get_enabled r) eqn:He; simpl; [|apply IH].
  rewrite He. simpl. destruct (str_eqb _ _); apply IH.
Qed.

(** X6. A rule with [enabled] false, wherever it stands in the replace,
    delete or append list and whatever its pattern or content, leaves
    the handler's output as it is without that rule. *)
Theorem disabled_rule_is_skipped `{E : ReEngine}
        (b : rule) (rs1 rs2 ds1 ds2 as1 as2 : list rule) (x : str) :
  get_enabled b = false ->
  transform (rules_config (rs1 ++ b :: rs2) (ds1 ++ ds2) (as1 ++ as2)) x
  = transform (rules_config (rs1 ++ rs2) (ds1 ++ ds2) (as1 ++ as2)) x
  /\ transform (rules_config (rs1 ++ rs2) (ds1 ++ b :: ds2) (as1 ++ as2)) x
     = transform (rules_config (rs1 ++ rs2) (ds1 ++ ds2) (as1 ++ as2)) x
  /\ transform (rules_config (rs1 ++ rs2) (ds1 ++ ds2) (as1 ++ b :: as2)) x
     = transform (rules_config (rs1 ++ rs2) (ds1 ++ ds2) (as1 ++ as2)) x.
Proof.
  intros Hb. unfold transform, rules_config, get_replace_rules,
    get_delete_rules, get_append_rules. simpl.
  assert (forall l1 l2, List.filter get_enabled (l1 ++ b :: l2)
                        = List.filter get_enabled (l1 ++ l2)) as Hf.
  { intros l1 l2. rewrite !List.filter_app. simpl. by rewrite Hb. }
  split; [|split].
  - by rewrite (replace_stage_enabled (rs1 ++ b :: rs2)), Hf,
      <- replace_stage_enabled.
  - destruct (replace_stage (rs1 ++ rs2) x) as [y|]; [|done]. simpl.
    by rewrite (delete_stage_enabled (ds1 ++ b :: ds2)), Hf,
      <- delete_stage_enabled.
  - destruct (replace_stage (rs1 ++ rs2) x) as [y|]; [|done]. simpl.
    destruct (delete_stage (ds1 ++ ds2) y) as [z|]; [|done]. simpl.
    by rewrite (append_stage_enabled (as1 ++ b :: as2)), Hf,
      <- append_stage_enabled.
Qed.

Lemma disabled_rule_is_skipped_witness :
  @transform literal_engine
    (rules_config
       [Rule (Some (lit "你")) (Some (lit "我")) None None
             (Some false) None None None;
        replace_rule "不可以" "可以" false] [] [])
    (lit "你不可以")
  = @transform literal_engine
      (rules_config [replace_rule "不可以" "可以" false] [] [])
      (lit "你不可以").
Proof.
  apply (@disabled_rule_is_skipped literal_engine
           (Rule (Some (lit "你")) (Some (lit "我")) None None
                 (Some false) None None None)
           [] [replace_rule "不可以" "可以" false] [] [] [] []
           (lit "你不可以")).
  reflexivity.
Defined.

(** X21. A rule whose pattern makes [re.sub] raise [re.error], placed
    anywhere in the replace list or in the delete list, changes
    nothing: the text the handler produces is the one produced without
    that rule.  With one more enabled replace rule that turns [x] into
    [y], in either order, the handler produces the clean-up of [y]:
    the valid rule still applies. *)
Theorem re_error_is_isolated `{E : ReEngine}
        (b g : rule) (rs1 rs2 ds1 ds2 aps : list rule) (x y : str) :
  fails_to_compile (get_pattern b) (rule_flags b) ->
  (transform (rules_config (rs1 ++ b :: rs2) (ds1 ++ ds2) aps) x
   = transform (rules_config (rs1 ++ rs2) (ds1 ++ ds2) aps) x
   /\ transform (rules_config (rs1 ++ rs2) (ds1 ++ b :: ds2) aps) x
      = transform (rules_config (rs1 ++ rs2) (ds1 ++ ds2) aps) x)
  /\ (get_enabled g = true ->
      re_sub (get_pattern g) (get_replacement g) x (rule_flags g) = SubOk y ->
      transform (rules_config [b; g] [] []) x
      = Some (_clean_extra_whitespace y)
      /\ transform (rules_config [g; b] [] []) x
         = Some (_clean_extra_whitespace y)).
Proof.
  intros Hb. split; [split|].
  - unfold transform, rules_config, get_replace_rules, get_delete_rules,
      get_append_rules. simpl.
    rewrite !replace_stage_app.
    destruct (replace_stage rs1 x) as [z|]; [|done].
    cbn [mbind option_bind].
    by rewrite replace_stage_skip_bad.
  - unfold transform, rules_config, get_replace_rules, get_delete_rules,
      get_append_rules. simpl.
    destruct (replace_stage (rs1 ++ rs2) x) as [z|]; [|done].
    cbn [mbind option_bind].
    rewrite !delete_stage_app.
    destruct (delete_stage ds1 z) as [w|]; [|done].
    cbn [mbind option_bind].
    by rewrite delete_stage_skip_bad.
  - intros Hg Hs.
    unfold transform, rules_config, get_replace_rules, get_delete_rules,
      get_append_rules. simpl. rewrite Hg, !Hb, Hs. simpl. rewrite Hb.
    by destruct (get_enabled b).
Qed.

Lemma re_error_is_isolated_witness :
  @transform literal_engine
    (rules_config [replace_rule "(" "x" false;
                   replace_rule "不可以" "可以" false] [] [])
    (lit "这个问题不可以解决")
  = Some (lit "这个问题可以解决").
Proof.
  refine (proj1 (proj2 (@re_error_is_isolated literal_engine
           (replace_rule "(" "x" false)
           (replace_rule "不可以" "可以" false) [] [] [] [] []
           (lit "这个问题不可以解决") (lit "这个问题可以解决") _) _ _)).
  - intros repl s0. reflexivity.
  - reflexivity.
  - vm_compute. reflexivity.
Defined.

(** X22. An enabled replace rule that makes [re.sub] raise an exception
    other than [re.error] on the text it receives ends the handler: it
    reports failure and [params] is returned as it came; no rule after
    it is applied and what the rules before it did is dropped. *)
Theorem other_error_aborts `{R : TomlReader} `{E : ReEngine}
        (f : file) (ps : gmap string param) (d : gmap string value)
        (x y : str) (b : rule) (rs1 rs2 : list rule) :
  plugin_enabled (load_config f) = true ->
  ps !! K_llm_response = Some (PDict d) ->
  d !! K_content = Some (VStr x) ->
  truthy x = true ->
  get_replace_rules (load_config f) = rs1 ++ b :: rs2 ->
  replace_stage rs1 x = Some y ->
  get_enabled b = true ->
  re_sub (get_pattern b) (get_replacement b) y (rule_flags b)
  = SubOtherError ->
  execute f (Some ps) = (result_of Failed, Some ps).
Proof.
  intros Hon Hd Hx Hne Hrs H1 Hb Hs. unfold execute. rewrite Hon. cbn [negb].
  assert (ps <> ∅) as Hps.
  { intros ->. by rewrite lookup_empty in Hd. }
  assert (d <> ∅) as Hdn.
  { intros ->. by rewrite lookup_empty in Hx. }
  rewrite (bool_decide_eq_false_2 _ Hps), Hd.
  rewrite (bool_decide_eq_false_2 _ Hdn), Hx, Hne. cbn [negb].
  unfold transform. rewrite Hrs, replace_stage_app, H1. simpl.
  by rewrite Hb, Hs.
Qed.

Lemma other_error_aborts_witness :
  let bad := replace_rule "a{4294967296}" "x" false in
  let good := replace_rule "不可以" "可以" false in
  let x := lit "这个问题不可以解决" in
  @execute (reader_of (rules_config [good; bad] [] [])) overflow_engine
           (Stored []) (content_params x)
  = (result_of Failed, content_params x).
Proof.
  intros bad good x.
  apply (@other_error_aborts
           (reader_of (rules_config [good; bad] [] [])) overflow_engine
           (Stored []) _ (<[K_content := VStr x]> ∅) x
           (lit "这个问题可以解决") bad [good] []);
    vm_compute; reflexivity.
Defined.

(** ** [RegexTestCommand] *)

Lemma test_replace_stage_agrees `{E : ReEngine} rs x :
  flagless rs = true -> test_replace_stage rs x = replace_stage rs x.
Proof.
  revert x. induction rs as [|r rs IH]; intros x; [done|].
  unfold flagless in *. cbn [forallb]. intros H.
  apply andb_true_iff in H as [Hr Hrs].
  cbn [test_replace_stage replace_stage].
  destruct (get_enabled r); cbn [negb orb] in *; [|by apply IH].
  apply Z.eqb_eq in Hr. rewrite Hr.
  destruct (re_sub _ _ _ _); auto.
Qed.

Lemma test_delete_stage_agrees `{E : ReEngine} rs x :
  flagless rs = true -> test_delete_stage rs x = delete_stage rs x.
Proof.
  revert x. induction rs as [|r rs IH]; intros x; [done|].
  unfold flagless in *. cbn [forallb]. intros H.
  apply andb_true_iff in H as [Hr Hrs].
  cbn [test_delete_stage delete_stage].
  destruct (get_enabled r); cbn [negb orb] in *; [|by apply IH].
  apply Z.eqb_eq in Hr. rewrite Hr.
  destruct (re_sub _ _ _ _); auto.
Qed.

(** X7. When no enabled replace or delete rule asks for [ignore_case] or
    [multiline], the test command shows exactly what the handler's
    replace and delete stages produce, reports a change exactly when
    that text differs from the input, fails exactly when these stages
    are left by an exception, and leaves the store alone. *)
Theorem test_preview_agrees `{R : TomlReader} `{E : ReEngine}
        (st : store) (x : str) :
  let c := load_config (st_file st) in
  flagless (get_replace_rules c) = true ->
  flagless (get_delete_rules c) = true ->
  regex_test st x
  = (match replace_delete c x with
     | Some y => TestDone (mkTestResult x y (negb (str_eqb y x)))
     | None => TestFailed
     end, st).
Proof.
  intros c Hr Hd. unfold regex_test, replace_delete. fold c.
  rewrite (test_replace_stage_agrees _ _ Hr).
  destruct (replace_stage _ x) as [y|]; [|done]. simpl.
  rewrite (test_delete_stage_agrees _ _ Hd).
  by destruct (delete_stage _ y).
Qed.

Lemma test_preview_agrees_witness :
  let st := Store (Stored []) true in
  @regex_test (reader_of schema_defaults) literal_engine st
              (lit "这个问题不可以解决")
  = (TestDone (mkTestResult (lit "这个问题不可以解决") (lit "这个可以解决")
                            true), st).
Proof.
  intros st.
  apply (@test_preview_agrees (reader_of schema_defaults) literal_engine
           st (lit "这个问题不可以解决")); reflexivity.
Defined.

(** ** The message handler *)

Lemma replace_stage_none `{E : ReEngine} rs x :
  replace_stage rs x = None ->
  exists r y,
    In r rs /\ get_enabled r = true
    /\ re_sub (get_pattern r) (get_replacement r) y (rule_flags r)
       = SubOtherError.
Proof.
  revert x. induction rs as [|r rs IH]; intros x; [done|].
  cbn [replace_stage].
  destruct (get_enabled r) eqn:He; cbn [negb].
  - destruct (re_sub _ _ x _) as [x'| |] eqn:Hs.
    + intros H. destruct (IH _ H) as (r' & y & Hin & Hr).
      exists r', y. split; [by right|done].
    + intros H. destruct (IH _ H) as (r' & y & Hin & Hr).
      exists r', y. split; [by right|done].
    + intros _. exists r, x. split; [by left|done].
  - intros H. destruct (IH _ H) as (r' & y & Hin & Hr).
    exists r', y. split; [by right|done].
Qed.

Lemma delete_stage_none `{E : ReEngine} rs x :
  delete_stage rs x = None ->
  exists r y,
    In r rs /\ get_enabled r = true
    /\ re_sub (get_pattern r) [] y (rule_flags r) = SubOtherError.
Proof.
  revert x. induction rs as [|r rs IH]; intros x; [done|].
  cbn [delete_stage].
  destruct (get_enabled r) eqn:He; cbn [negb].
  - destruct (re_sub _ _ x _) as [x'| |] eqn:Hs.
    + intros H. destruct (IH _ H) as (r' & y & Hin & Hr).
      exists r', y. split; [by right|done].
    + intros H. destruct (IH _ H) as (r' & y & Hin & Hr).
      exists r', y. split; [by right|done].
    + intros _. exists r, x. split; [by left|done].
  - intros H. destruct (IH _ H) as (r' & y & Hin & Hr).
    exists r', y. split; [by right|done].
Qed.

Lemma transform_none `{E : ReEngine} c x :
  transform c x = None -> some_rule_raises c.
Proof.
  unfold transform.
  destruct (replace_stage _ x) as [y|] eqn:Hr; simpl.
  - destruct (delete_stage _ y) as [z|] eqn:Hd; [done|]. intros _.
    destruct (delete_stage_none _ _ Hd) as (r & w & Hin & He & Hs).
    exists r, w. split; [done|]. by right.
  - intros _.
    destruct (replace_stage_none _ _ Hr) as (r & w & Hin & He & Hs).
    exists r, w. split; [done|]. by left.
Qed.

(** X8. The handler never stops the message: [continue_process] is true on
    every path.  It reports failure only when [content] is a true
    value that is not a string, or when [content] is a string and an
    enabled replace or delete rule makes [re.sub] raise an exception
    other than [re.error]; and then, as whenever it does not report
    [Processed], [params] is returned untouched. *)
Theorem execute_never_blocks `{R : TomlReader} `{E : ReEngine}
        (f : file) (params : option (gmap string param)) :
  let res := fst (execute f params) in
  continue_process res = true
  /\ (success res = false <-> message res = Failed)
  /\ (message res = Processed \/ snd (execute f params) = params)
  /\ (message res = Failed ->
      exists ps d, params = Some ps
                   /\ ps !! K_llm_response = Some (PDict d)
                   /\ (d !! K_content = Some (VOther true)
                       \/ exists x, d !! K_content = Some (VStr x)
                                    /\ transform (load_config f) x = None
                                    /\ some_rule_raises (load_config f))).
Proof.
  unfold execute.
  assert (forall o, o <> Failed -> o <> Processed ->
            let res := fst (result_of o, params) in
            continue_process res = true
            /\ (success res = false <-> message res = Failed)
            /\ (message res = Processed
                \/ snd (result_of o, params) = params)
            /\ (message res = Failed ->
                exists ps d, params = Some ps
                  /\ ps !! K_llm_response = Some (PDict d)
                  /\ (d !! K_content = Some (VOther true)
                      \/ exists x,
                          d !! K_content = Some (VStr x)
                          /\ transform (load_config f) x = None
                          /\ some_rule_raises (load_config f))))
    as Hplain.
  { intros o Hf Hp.
    destruct o; try done; simpl;
      (split; [done|]; split; [split; discriminate|];
       split; [by right|discriminate]). }
  destruct (negb (plugin_enabled (load_config f))); [by apply Hplain|].
  destruct params as [ps|]; [|by apply Hplain].
  case_bool_decide; [by apply Hplain|].
  destruct (ps !! K_llm_response) as [[|d]|] eqn:Hd;
    [by apply Hplain| |by apply Hplain].
  case_bool_decide; [by apply Hplain|].
  destruct (d !! K_content) as [[|x|[]]|] eqn:Hx;
    try (by apply Hplain).
  - destruct (negb (truthy x)); [by apply Hplain|].
    destruct (transform (load_config f) x) as [y|] eqn:Ht.
    + destruct (negb (str_eqb _ x)); [|by apply Hplain].
      simpl. split; [done|]. split; [split; discriminate|].
      split; [by left|discriminate].
    + simpl. split; [done|]. split; [done|]. split; [by right|].
      intros _. exists ps, d. split; [done|]. split; [done|]. right.
      exists x. split; [done|]. split; [done|]. by apply (transform_none _ x).
  - simpl. split; [done|]. split; [done|]. split; [by right|].
    intros _. exists ps, d. split; [done|]. split; [done|]. by left.
Qed.

Lemma execute_never_blocks_witness :
  let bad := replace_rule "a{4294967296}" "x" false in
  let R := reader_of (rules_config [bad] [] []) in
  let params := content_params (lit "aaa") in
  exists (ps : gmap string param) (d : gmap string value),
    params = Some ps
    /\ ps !! K_llm_response = Some (PDict d)
    /\ (d !! K_content = Some (VOther true)
        \/ exists x, d !! K_content = Some (VStr x)
                     /\ @transform overflow_engine
                          (@load_config R (Stored [])) x = None
                     /\ @some_rule_raises overflow_engine
                          (@load_config R (Stored []))).
Proof.
  intros bad R params.
  apply (@execute_never_blocks R overflow_engine (Stored []) params).
  reflexivity.
Defined.

(** X9. With no usable configuration file the handler applies no rule at
    all (the sample rules of [config_schema] included): what it does
    to a text is the white-space clean-up and nothing else. *)
Theorem no_config_only_cleans `{R : TomlReader} `{E : ReEngine}
        (f : file) (x : str) :
  load_falls_back f = true ->
  transform (load_config f) x = Some (_clean_extra_whitespace x).
Proof.
  intros Hf. unfold load_config.
  assert (fst (load_config_logged f) = empty_config) as ->.
  { destruct f as [| |text]; simpl in *; try done.
    by destruct (toml_load text). }
  reflexivity.
Qed.

Lemma no_config_only_cleans_witness :
  @transform literal_engine (@load_config reader_reject Missing)
             (lit "这个问题  不可以解决 ")
  = Some (lit "这个问题 不可以解决").
Proof.
  rewrite (@no_config_only_cleans reader_reject literal_engine Missing
             (lit "这个问题  不可以解决 ") eq_refl).
  vm_compute. reflexivity.
Defined.

(** ** [_clean_extra_whitespace] *)

Lemma clean_shape (s : str) :
  let t := _clean_extra_whitespace s in
  trimmed t /\ ok_blank_lines t = true /\ ok_hspaces t = true
  /\ ok_line_start t = true /\ ok_line_end t = true.
Proof.
  destruct s as [|c0 s0]; [by repeat split|].
  intros t. subst t. rewrite clean_nonempty by done.
  set (u0 := strip (c0 :: s0)).
  set (u1 := sub re_blank_lines [LF; LF] u0).
  set (u2 := sub re_hspaces [SP] u1).
  set (u3 := sub re_line_start [LF] u2).
  set (u4 := sub re_line_end [LF] u3).
  assert (trimmed u4) as Ht.
  { apply (squeeze_trimmed u3);
      [apply squeeze_hspace_space, squeeze_drop_hspace, trim_end_squeeze|].
    apply (squeeze_trimmed u2);
      [apply squeeze_hspace_space, squeeze_drop_hspace,
         trim_start_squeeze|].
    apply (squeeze_trimmed u1);
      [apply squeeze_hspace_space, squash_squeeze|].
    apply (squeeze_trimmed u0); [apply collapse_squeeze|].
    apply strip_trimmed. }
  rewrite (strip_fixed _ Ht). split; [done|].
  split.
  { apply (squeeze_ok_blank_lines u3);
      [apply squeeze_drop_hspace, trim_end_squeeze|].
    apply (squeeze_ok_blank_lines u2);
      [apply squeeze_drop_hspace, trim_start_squeeze|].
    apply (squeeze_ok_blank_lines u1); [apply squash_squeeze|].
    apply collapse_ok. }
  split.
  { apply (squeeze_ok_hspaces u3); [apply trim_end_squeeze|].
    apply (squeeze_ok_hspaces u2); [apply trim_start_squeeze|].
    apply squash_ok. }
  split.
  { apply (squeeze_ok_line_start u3); [apply trim_end_squeeze|].
    apply trim_start_ok. }
  apply trim_end_ok.
Qed.

Lemma ok_blank_lines_suffix a s :
  ok_blank_lines (a ++ s) = true -> ok_blank_lines s = true.
Proof.
  induction a as [|c a IH]; [done|].
  change ((c :: a) ++ s) with (c :: (a ++ s)). cbn [ok_blank_lines].
  intros H. apply andb_true_iff in H as [_ H]. by apply IH.
Qed.

Lemma ok_hspaces_suffix a s :
  ok_hspaces (a ++ s) = true -> ok_hspaces s = true.
Proof.
  induction a as [|c a IH]; [done|].
  change ((c :: a) ++ s) with (c :: (a ++ s)). cbn [ok_hspaces].
  intros H. apply andb_true_iff in H as [_ H]. by apply IH.
Qed.

Lemma ok_line_start_suffix a s :
  ok_line_start (a ++ s) = true -> ok_line_start s = true.
Proof.
  induction a as [|c a IH]; [done|].
  change ((c :: a) ++ s) with (c :: (a ++ s)). cbn [ok_line_start].
  intros H. apply andb_true_iff in H as [_ H]. by apply IH.
Qed.

Lemma ok_line_end_suffix a s :
  ok_line_end (a ++ s) = true -> ok_line_end s = true.
Proof.
  induction a as [|c a IH]; [done|].
  change ((c :: a) ++ s) with (c :: (a ++ s)). cbn [ok_line_end].
  intros H. apply andb_true_iff in H as [_ H]. by apply IH.
Qed.

Lemma ok_hspaces_no_tab s :
  ok_hspaces s = true -> forallb (fun c => negb (c =? TAB)) s = true.
Proof.
  induction s as [|c s IH]; [done|]. cbn [ok_hspaces forallb].
  intros H. apply andb_true_iff in H as [H Hs].
  apply andb_true_iff in H as [-> _]. by rewrite (IH Hs).
Qed.

(** X10. What a cleaned text looks like, whatever the input: no white space
    at either end, no tab, never two spaces in a row, no space next to
    a line feed, and never more than two line feeds in a row. *)
Theorem clean_result_is_tidy (s : str) :
  let t := _clean_extra_whitespace s in
  starts isspace t = false /\ lastws t = false
  /\ forallb (fun c => negb (c =? TAB)) t = true
  /\ ~ factor [SP; SP] t
  /\ ~ factor [LF; SP] t
  /\ ~ factor [SP; LF] t
  /\ ~ factor [LF; LF; LF] t.
Proof.
  intros t. destruct (clean_shape s) as ([Hst Hend] & H3 & H4 & H5 & H6).
  fold t in Hst, Hend, H3, H4, H5, H6.
  split; [done|]. split; [done|].
  split; [by apply ok_hspaces_no_tab|].
  split; [|split; [|split]]; intros (a & b & Heq); rewrite Heq in *.
  - apply ok_hspaces_suffix in H4. by vm_compute in H4.
  - apply ok_line_start_suffix in H5. by vm_compute in H5.
  - apply ok_line_end_suffix in H6. by vm_compute in H6.
  - apply ok_blank_lines_suffix in H3. by vm_compute in H3.
Qed.

Lemma squeeze_ink s s' : squeeze isspace isspace s s' -> ink s' = ink s.
Proof.
  intros H. unfold ink.
  induction H as [|c s s' H IH|c s s' Hc H IH|c c' s s' Hc Hc' H IH];
    simpl; [done|by rewrite IH|by rewrite Hc|by rewrite Hc, Hc'].
Qed.

Lemma squeeze_length p q s s' :
  squeeze p q s s' -> (length s' <= length s)%nat.
Proof. intros H. induction H; simpl; lia. Qed.

Lemma skip_ink s : ink (skip isspace s) = ink s.
Proof.
  unfold ink. induction s as [|c s IH]; [done|]. simpl.
  destruct (isspace c) eqn:Hc; simpl; [done|by rewrite Hc].
Qed.

Lemma strip_ink s : ink (strip s) = ink s.
Proof.
  unfold strip, rstrip. rewrite !lstrip_skip.
  unfold ink at 1. rewrite filter_rev. fold (ink (skip isspace (rev (skip isspace s)))).
  rewrite skip_ink. unfold ink at 1. rewrite filter_rev, rev_involutive.
  apply skip_ink.
Qed.

Lemma strip_length s : (length (strip s) <= length s)%nat.
Proof.
  unfold strip, rstrip. rewrite !lstrip_skip, length_rev.
  pose proof (skip_length isspace (rev (skip isspace s))) as H1.
  pose proof (skip_length isspace s) as H2.
  rewrite length_rev in H1. lia.
Qed.

(** X11. The clean-up only touches white space: the other characters of the
    text come out the same and in the same order, and the text never
    gets longer. *)
Theorem clean_only_touches_whitespace (s : str) :
  ink (_clean_extra_whitespace s) = ink s
  /\ (length (_clean_extra_whitespace s) <= length s)%nat.
Proof.
  destruct s as [|c0 s0]; [by split|].
  rewrite clean_nonempty by done.
  set (u0 := strip (c0 :: s0)).
  set (u1 := sub re_blank_lines [LF; LF] u0).
  set (u2 := sub re_hspaces [SP] u1).
  set (u3 := sub re_line_start [LF] u2).
  set (u4 := sub re_line_end [LF] u3).
  pose proof (collapse_squeeze u0) as S1. fold u1 in S1.
  pose proof (squeeze_hspace_space _ _ (squash_squeeze u1)) as S2.
  fold u2 in S2.
  pose proof (squeeze_hspace_space _ _
                (squeeze_drop_hspace _ _ (trim_start_squeeze u2))) as S3.
  fold u3 in S3.
  pose proof (squeeze_hspace_space _ _
                (squeeze_drop_hspace _ _ (trim_end_squeeze u3))) as S4.
  fold u4 in S4.
  split.
  - rewrite strip_ink, (squeeze_ink _ _ S4), (squeeze_ink _ _ S3),
      (squeeze_ink _ _ S2), (squeeze_ink _ _ S1). apply strip_ink.
  - pose proof (strip_length u4). pose proof (strip_length (c0 :: s0)).
    pose proof (squeeze_length _ _ _ _ S1).
    pose proof (squeeze_length _ _ _ _ S2).
    pose proof (squeeze_length _ _ _ _ S3).
    pose proof (squeeze_length _ _ _ _ S4).
    fold u0 in H0. lia.
Qed.

(** ** The commands and the file they rewrite *)












Lemma stored_rules_of `{R : TomlReader} t st :
  stored_rules t st = rules_of t (load_config (st_file st)).
Proof. unfold stored_rules. by destruct t. Qed.

(** *** Plain configurations stay plain *)






Lemma rules_of_rule_list t p r a :
  rules_of t (Config p r a) = default [] (rc ← r; rule_list t rc).
Proof. by destruct t. Qed.




(** *** What a command leaves in the store *)


Section Commands.
Context `{R : TomlReader}.




End Commands.

(** ** [RegexToggleCommand] *)







(** When the store rejects the write, the toggle reports failure and
    the store is as before. *)
Lemma toggle_unwritable `{R : TomlReader} (st : store) :
  st_writable st = false ->
  regex_toggle st
  = (false, negb (plugin_enabled (load_config (st_file st))), st).
Proof.
  intros Hw. unfold regex_toggle, _toggle_plugin_status, save_config.
  by rewrite Hw.
Qed.

(** ** [RegexAddCommand] *)

Lemma regex_add_accepted `{R : TomlReader} `{C : ReCompile}
      (args : add_args) t new st :
  accepted args = true ->
  added_rule args = Some (t, new) ->
  snd (regex_add args st) = snd (add_rule t new st)
  /\ fst (regex_add args st)
     = match t with
       | KAppend => true
       | KReplace | KDelete => fst (add_rule t new st)
       end.
Proof.
  intros Hacc Hadd.
  destruct args as [|content|content|pattern [repl|]]; simpl in *;
    try done; rewrite Hacc; simpl; injection Hadd as <- <-.
  - unfold _add_append_rule. by destruct (add_rule _ _ st).
  - unfold _add_append_rule. by destruct (add_rule _ _ st).
  - unfold _add_replace_rule. by destruct (add_rule _ _ st) as [[] st'].
  - unfold _add_delete_rule. by destruct (add_rule _ _ st) as [[] st'].
Qed.






(** X17. When the store rejects the write, adding a replace or delete rule
    reports failure, but adding an append or prepend rule reports
    success although nothing was stored: [_add_append_rule] logs the
    failed save and does not raise. *)
Theorem add_append_hides_failed_save `{R : TomlReader} `{C : ReCompile}
        (content pattern : str) (replacement : option str) (st : store) :
  st_writable st = false ->
  truthy content = true ->
  re_compile_ok pattern = true ->
  regex_add (AddAppend content) st = (true, st)
  /\ regex_add (AddPrepend content) st = (true, st)
  /\ regex_add (AddPattern pattern replacement) st = (false, st).
Proof.
  intros Hw Hc Hp.
  unfold regex_add, _add_append_rule, _add_replace_rule, _add_delete_rule,
    add_rule, save_config.
  rewrite Hw, Hc, Hp. simpl. by destruct replacement.
Qed.

Lemma add_append_hides_failed_save_witness :
  @regex_add reader_reject literal_compile (AddAppend (lit "x"))
             (Store Missing false)
  = (true, Store Missing false).
Proof.
  apply (@add_append_hides_failed_save reader_reject literal_compile
           (lit "x") (lit "a") None (Store Missing false));
    reflexivity.
Defined.

(** X23. When the file can be opened and the text cannot be encoded, as with
    a lone surrogate in the new rule, an accepted [/regex_add] leaves
    the configuration file empty; it reports failure for a replace or
    delete rule and success for an append or prepend rule. *)
Theorem add_unencodable_empties_file `{R : TomlReader} `{C : ReCompile}
        (args : add_args) (t : rule_type) (new : rule) (st : store) :
  st_writable st = true ->
  accepted args = true ->
  added_rule args = Some (t, new) ->
  encodable (_generate_toml_content (config_with t new st)) = false ->
  regex_add args st
  = (match t with KAppend => true | KReplace | KDelete => false end,
     Store (Stored []) true).
Proof.
  intros Hw Hacc Hadd He.
  destruct (regex_add_accepted args t new st Hacc Hadd) as [Hst Hok].
  assert (add_rule t new st = (false, Store (Stored []) true)) as Hs.
  { unfold add_rule, save_config. by rewrite Hw, He. }
  rewrite Hs in Hst, Hok.
  destruct (regex_add args st) as [ok st']. cbn [fst snd] in *.
  subst ok st'. by destruct t.
Qed.

Lemma add_unencodable_empties_file_witness :
  @regex_add toml_read literal_compile (AddAppend [SURROGATE]) sample_store
  = (true, Store (Stored []) true).
Proof.
  apply (@add_unencodable_empties_file toml_read literal_compile
           (AddAppend [SURROGATE]) KAppend
           (new_append_rule [SURROGATE] (lit "end")) sample_store);
    vm_compute; reflexivity.
Defined.

(** ** Commands in sequence *)





(** ** Rewriting the file *)


